(** * Derived-state selectors of the timeline viewer (src/selectors/index.js)

    A shallow embedding of the selector functions and of the fragment of the
    JavaScript run time they rely on: sparse arrays, plain objects used as
    dictionaries, [Array.prototype.sort] and thrown [TypeError]s.

    The helpers imported from [../common/utilities], [./helpers] and
    [../common/global] are parameters of the selectors.  The memoization of
    [createSelector] is not modelled: a selector is its result function.

    Conventions: an event id is the array index the event is stored under;
    timestamps, tags, categories, locations and narrative ids are strings;
    timestamps are well-formed dates, so that [new Date(s)] has a time
    value and no timestamp is the name of a member of [Object.prototype].

    The dictionaries of the selectors are object literals, which inherit
    from [Object.prototype]: reading [o[k]] finds the inherited member when
    [o] has no own property [k], assigning to [o["__proto__"]] changes the
    prototype instead of creating a property, and [o.hasOwnProperty] is
    itself looked up on [o].  Tags, categories, locations and narrative ids
    are free-form, so this is part of the model. *)

From Stdlib Require Import ZArith NArith Ascii Lia Permutation.
From stdpp Require Import base option list strings.

Open Scope string_scope.
Open Scope list_scope.

(** ** Thrown errors *)

Inductive JsError := TypeError.

Inductive result (A : Type) :=
  | Ok (a : A)
  | Throw (e : JsError).
Arguments Ok {A} a.
Arguments Throw {A} e.

#[global] Instance result_bind : MBind result := fun A B k r =>
  match r with
  | Ok a => k a
  | Throw e => Throw e
  end.

(** [forEach] with a body that may throw: the first exception aborts the loop. *)
Fixpoint forEachM {A S} (body : S -> A -> result S) (l : list A) (s : S) : result S :=
  match l with
  | [] => Ok s
  | x :: l' => s' ← body s x; forEachM body l' s'
  end.

(** A sparse array is the list of its slots, [None] for a hole; an object is
    the list of its own properties. *)
Abbreviation sparse A := (list (option A)) (only parsing).
Abbreviation obj V := (list (string * V)) (only parsing).

(** ** Sparse arrays

    [acc[i] = v] on an array: in range it overwrites, out of range it extends
    the array and leaves holes.  [forEach] and [Object.values] skip holes. *)
Module JsArray.

Fixpoint set {A} (a : sparse A) (i : nat) (v : A) : sparse A :=
  match a, i with
  | [], O => [Some v]
  | [], S i' => None :: set [] i' v
  | _ :: a', O => Some v :: a'
  | x :: a', S i' => x :: set a' i' v
  end.

Definition get {A} (a : sparse A) (i : nat) : option A := mjoin (a !! i).

(** the elements visited by [forEach], in index order *)
Definition elements {A} (a : sparse A) : list A := omap id a.

End JsArray.

(** ** Plain objects used as dictionaries

    An object is its table of own properties in creation order.  Assigning to
    an existing key keeps the key's position.  [get] and [set] are the
    lookup and the assignment on own properties; [read], [assign] and
    [hasOwnProperty] are [o[k]], [o[k] = v] and [o.hasOwnProperty(k)] on an
    object that inherits from [Object.prototype].  Enumeration
    ([Object.keys], [Object.values]) lists the own keys that are canonical
    array indices first, in ascending numeric order, then the other own keys
    in creation order. *)
Module JsObject.

Fixpoint get {V} (o : obj V) (k : string) : option V :=
  match o with
  | [] => None
  | (k', v) :: o' => if decide (k = k') then Some v else get o' k
  end.

Fixpoint set {V} (o : obj V) (k : string) (v : V) : obj V :=
  match o with
  | [] => [(k, v)]
  | (k', v') :: o' =>
      if decide (k = k') then (k, v) :: o' else (k', v') :: set o' k v
  end.

(** The names of the members of [Object.prototype]: the methods, the
    accessor [__proto__] and [constructor]. *)
Definition prototype_members : list string :=
  ["constructor"; "__defineGetter__"; "__defineSetter__"; "hasOwnProperty";
   "__lookupGetter__"; "__lookupSetter__"; "isPrototypeOf";
   "propertyIsEnumerable"; "toString"; "valueOf"; "__proto__"; "toLocaleString"].

(** What [o[k]] evaluates to when it is not [undefined]: the value of the own
    property, or the member inherited under that name, which is a function
    or, for [__proto__], the prototype itself: a truthy value without the
    fields of the values stored by the selectors. *)
Inductive property (V : Type) :=
  | Own (v : V)
  | Inherited (name : string).
Arguments Own {V} v.
Arguments Inherited {V} name.

(** [o[k]]; [None] is [undefined] *)
Definition read {V} (o : obj V) (k : string) : option (property V) :=
  match get o k with
  | Some v => Some (Own v)
  | None => if decide (k ∈ prototype_members) then Some (Inherited k) else None
  end.

(** [o[k] = v] for an object [v]: under the key [__proto__] the assignment
    calls the inherited setter, which makes [v] the prototype of [o] and
    creates no own property.  The prototype set that way is not modelled:
    the selectors read [o], after such an assignment, under own keys only. *)
Definition assign {V} (o : obj V) (k : string) (v : V) : obj V :=
  if decide (k = "__proto__") then o else set o k v.

(** [o.hasOwnProperty(k)]: the method is looked up on [o] itself, and an own
    property of that name, whose value is no function, shadows the
    inherited method: the call throws. *)
Definition hasOwnProperty {V} (o : obj V) (k : string) : result bool :=
  match get o "hasOwnProperty" with
  | Some _ => Throw TypeError
  | None => Ok (bool_decide (is_Some (get o k)))
  end.

(** [{...a, ...b}] copies the own properties of [b] over those of [a]. *)
Definition spread {V} (a b : obj V) : obj V :=
  fold_left (fun o kv => set o kv.1 kv.2) b a.

Definition digit (c : ascii) : option N :=
  let n := N_of_ascii c in
  if ((48 <=? n) && (n <=? 57))%N then Some (n - 48)%N else None.

Fixpoint digits_value (acc : N) (s : string) : option N :=
  match s with
  | EmptyString => Some acc
  | String c s' =>
      match digit c with
      | Some d => digits_value (10 * acc + d)%N s'
      | None => None
      end
  end.

(** A key is an array index when it is the decimal numeral, without
    leading zero, of an integer below 2^32 - 1. *)
Definition array_index (k : string) : option N :=
  match k with
  | EmptyString => None
  | String c rest =>
      if decide (c = "0"%char) then
        match rest with EmptyString => Some 0%N | _ => None end
      else
        match digits_value 0 k with
        | Some n => if (n <? 4294967295)%N then Some n else None
        | None => None
        end
  end.

Fixpoint insert_index {V} (n : N) (kv : string * V) (l : list (N * (string * V)))
  : list (N * (string * V)) :=
  match l with
  | [] => [(n, kv)]
  | (m, kv') :: l' =>
      if (n <=? m)%N then (n, kv) :: l else (m, kv') :: insert_index n kv l'
  end.

Definition index_properties {V} (o : obj V) : list (N * (string * V)) :=
  foldr (fun kv acc =>
           match array_index kv.1 with
           | Some n => insert_index n kv acc
           | None => acc
           end) [] o.

Definition string_properties {V} (o : obj V) : obj V :=
  filter (fun kv => array_index kv.1 = None) o.

(** own properties in enumeration order *)
Definition entries {V} (o : obj V) : obj V :=
  (snd <$> index_properties o) ++ string_properties o.

Definition keys {V} (o : obj V) : list string := fst <$> entries o.
Definition values {V} (o : obj V) : list V := snd <$> entries o.

(** [o[k] = F(k, o[k])] for a key that is present; and the same change made
    to one property, seen as a pair. *)
Definition update {V} (F : string -> V -> V) (o : obj V) (k : string) : obj V :=
  match get o k with
  | Some v => set o k (F k v)
  | None => o
  end.

Definition on_values {V W} (f : string -> V -> W) (kv : string * V) : string * W :=
  (kv.1, f kv.1 kv.2).

End JsObject.

(** ** [Array.prototype.sort] with a comparator

    The sort is stable; with a consistent comparator every implementation
    returns the same array as this insertion sort. *)
Module JsSort.
Section Sort.
Context {A : Type} (cmp : A -> A -> Z).

Fixpoint insert (x : A) (l : list A) : list A :=
  match l with
  | [] => [x]
  | y :: l' => if (cmp x y <=? 0)%Z then x :: l else y :: insert x l'
  end.

Definition sort (l : list A) : list A := foldr insert [] l.

(** adjacent elements are in order *)
Definition ascending (l : list A) : Prop :=
  forall i a b, l !! i = Some a -> l !! S i = Some b -> (cmp a b <= 0)%Z.
End Sort.
End JsSort.

Import JsObject.

Definition includes (l : list string) (x : string) : bool := bool_decide (x ∈ l).

(** [Array.prototype.indexOf] on an array of strings; the searched value is
    a string, or [None] for a value that is no string ([null], [undefined]). *)
Fixpoint indexOf_from (n : Z) (l : list string) (x : string) : Z :=
  match l with
  | [] => (-1)%Z
  | y :: l' => if decide (x = y) then n else indexOf_from (n + 1)%Z l' x
  end.

Definition indexOf (l : list string) (x : option string) : Z :=
  match x with
  | Some s => indexOf_from 0%Z l s
  | None => (-1)%Z
  end.

(** Truthiness of an optional string field: [undefined] and [""] are falsy. *)
Definition truthy (x : option string) : bool :=
  match x with
  | Some s => negb (bool_decide (s = ""))
  | None => false
  end.

(** Property-key coercion of an optional string. *)
Definition to_key (x : option string) : string :=
  match x with
  | Some s => s
  | None => "undefined"
  end.

(** ** Data model *)

(** An event of [state.domain.events].  [None] stands for an absent
    ([undefined]) field.  [id] is the array index the event is stored under. *)
Record Event := {
  id : nat;
  timestamp : string;
  date : string;
  time : string;
  category : string;
  tags : option (list string);
  narratives : option (list string);
  sources : list string;
  location : option string;
  latitude : option string;
  longitude : option string
}.

Record Category := { cat_category : string; cat_description : string }.

(** [process.env.features] *)
Record Features := {
  USE_SITES : bool;
  USE_SOURCES : bool;
  USE_SHAPES : bool;
  ASSOCIATIVE_EVENTS_BY_TAG : bool
}.

(** A site; [enabled] is the number [+s.enabled], [None] when it is NaN. *)
Record Site := { site_label : string; enabled : option Z }.

(** [!!(+s.enabled)] *)
Definition is_enabled (s : Site) : bool :=
  match enabled s with
  | Some n => negb (n =? 0)%Z
  | None => false
  end.

Record LocationGroup := {
  lg_label : option string;
  lg_events : list Event;
  lg_latitude : option string;
  lg_longitude : option string
}.

(** [{ start, end }] of a project *)
Record Project := { pj_start : string; pj_end : string }.

(** An event inside a datetime group.  [project] is [None] when the field is
    absent, [Some None] when it is [null]; [projectOffset] is absent until
    the lanes are assigned. *)
Record DatetimeEvent := {
  de_event : Event;
  project : option (option string);
  projectOffset : option Z
}.

Record DatetimeGroup := {
  dt_timestamp : string;
  dt_date : string;
  dt_time : string;
  dt_events : list DatetimeEvent
}.

Section Selectors.

(** Helpers and constants imported by the selectors. *)
Context {TimeRange Source Shape Step : Type}.
(** [isTimeRangedIn] of [./helpers] *)
Variable isTimeRangedIn : Event -> TimeRange -> bool.
(** [insetSourceFrom], [compareTimestamp], [dateMin], [dateMax] of
    [../common/utilities] *)
Variable insetSourceFrom : obj Source -> Event -> Step.
Variable compareTimestamp : Step -> Step -> Z.
Variables dateMin dateMax : string -> string -> string.
(** [sizes.eventDotR] of [../common/global] *)
Variable eventDotR : Z.
(** the time value of [new Date(s)] *)
Variable dateOf : string -> Z.
(** [process.env.features] *)
Variable features : Features.

(** Field values of narrative objects: strings and step arrays. *)
Inductive Val :=
  | VStr (s : string)
  | VSteps (steps : list Step).

(** An entry of [state.domain.narratives]: its [id] and its other fields. *)
Record NarrativeMeta := { nm_id : string; nm_fields : obj Val }.

(** *** Input selectors *)

Record Domain := {
  d_events : list Event;
  d_categories : list Category;
  d_narratives : list NarrativeMeta;
  d_sources : obj Source;
  d_sites : list Site;
  d_shapes : list Shape
}.

Record Filters := { f_tags : list string; f_categories : list string }.

Record App := { a_filters : Filters; a_range : TimeRange }.

Record State := { domain : Domain; app : App }.

Definition getEvents (state : State) := d_events (domain state).
Definition getCategories (state : State) := d_categories (domain state).
Definition getNarratives (state : State) := d_narratives (domain state).

Definition getSites (state : State) : list Site :=
  if USE_SITES features
  then filter (fun s => is_enabled s) (d_sites (domain state))
  else [].

Definition getSources (state : State) : obj Source :=
  if USE_SOURCES features then d_sources (domain state) else [].

Definition getShapes (state : State) : list Shape :=
  if USE_SHAPES features then d_shapes (domain state) else [].

Definition getActiveTags (state : State) := f_tags (a_filters (app state)).
Definition getActiveCategories (state : State) := f_categories (a_filters (app state)).
Definition getTimeRange (state : State) := a_range (app state).

(** *** selectEvents *)

(** the test of the reduce callback: [isActiveTime && isActiveTag &&
    isActiveCategory] *)
Definition isSelected (activeTags activeCategories : list string)
    (timeRange : TimeRange) (event : Event) : bool :=
  let isMatchingTag :=
    match tags event with
    | Some ts => existsb (fun s => s) (map (fun tag => includes activeTags tag) ts)
    | None => false
    end || (length activeTags =? 0)%nat in
  let isActiveTag := isMatchingTag || (length activeTags =? 0)%nat in
  let isActiveCategory :=
    includes activeCategories (category event) || (length activeCategories =? 0)%nat in
  let isActiveTime := isTimeRangedIn event timeRange in
  isActiveTime && isActiveTag && isActiveCategory.

(** [events.reduce(..., [])]: a selected event is stored under its id *)
Definition selectEvents (events : list Event) (activeTags activeCategories : list string)
    (timeRange : TimeRange) : sparse Event :=
  fold_left (fun acc event =>
               if isSelected activeTags activeCategories timeRange event
               then JsArray.set acc (id event) event
               else acc) events [].

(** *** selectLocations *)

(** the body of [events.forEach]: [activeLocations[location]] is truthy for
    an own group and for an inherited member; the member has no [events],
    so that [.events.push] throws on it; a location that reads as
    [undefined] is no member, and gets its own group *)
Definition locate (activeLocations : obj LocationGroup) (event : Event)
    : result (obj LocationGroup) :=
  let location := location event in
  match read activeLocations (to_key location) with
  | Some (Own g) =>
      Ok (set activeLocations (to_key location)
            {| lg_label := lg_label g;
               lg_events := lg_events g ++ [event];
               lg_latitude := lg_latitude g;
               lg_longitude := lg_longitude g |})
  | Some (Inherited _) => Throw TypeError
  | None =>
      Ok (set activeLocations (to_key location)
            {| lg_label := location;
               lg_events := [event];
               lg_latitude := latitude event;
               lg_longitude := longitude event |})
  end.

(** the loop, then [Object.values(activeLocations)] *)
Definition selectLocations (events : sparse Event) : result (list LocationGroup) :=
  activeLocations ← forEachM locate (JsArray.elements events) [];
  Ok (values activeLocations).

(** *** selectNarratives *)

(** [id => ({ id, steps: [] })] *)
Definition narrativeSkeleton (id : string) : obj Val :=
  [("id", VStr id); ("steps", VSteps [])].

(** the metadata entry as an object *)
Definition meta_obj (m : NarrativeMeta) : obj Val :=
  spread [] (nm_fields m ++ [("id", VStr (nm_id m))]).

(** [narratives[narrative].steps.push(step)]: an inherited member has no
    [steps], and [push] on [undefined] throws *)
Definition push_step (narrs : obj (obj Val)) (narrative : string) (step : Step)
    : result (obj (obj Val)) :=
  match read narrs narrative with
  | Some (Own n) =>
      match get n "steps" with
      | Some (VSteps steps) =>
          Ok (set narrs narrative (set n "steps" (VSteps (steps ++ [step]))))
      | _ => Throw TypeError
      end
  | Some (Inherited _) => Throw TypeError
  | None => Throw TypeError
  end.

(** the body of [events.forEach]: [evt.narratives.length] throws when the
    field is absent; every reference initialises its narrative, unless
    [narratives[narrative]] is truthy already (an own narrative, or an
    inherited member), and pushes the event, with its sources inlined, onto
    the steps *)
Definition add_event (sources : obj Source) (narrs : obj (obj Val)) (evt : Event)
    : result (obj (obj Val)) :=
  match narratives evt with
  | None => Throw TypeError
  | Some ns =>
      let isInNarrative := (0 <? length ns)%nat in
      forEachM (fun narrs narrative =>
                  let narrs :=
                    match read narrs narrative with
                    | Some _ => narrs
                    | None => set narrs narrative (narrativeSkeleton narrative)
                    end in
                  if isInNarrative
                  then push_step narrs narrative (insetSourceFrom sources evt)
                  else Ok narrs) ns narrs
  end.

(** the body of [Object.keys(narratives).forEach], [key] being an own key:
    the steps are sorted in place, and the narrative is replaced by
    [{...meta, ...narrative}] when [narrativesMeta.find(n => n.id === key)]
    finds an entry *)
Definition sort_and_merge (narrativesMeta : list NarrativeMeta)
    (narrs : obj (obj Val)) (key : string) : result (obj (obj Val)) :=
  match get narrs key with
  | Some n =>
      match get n "steps" with
      | Some (VSteps steps) =>
          let n := set n "steps" (VSteps (JsSort.sort compareTimestamp steps)) in
          let narrs := set narrs key n in
          match List.find (fun m => bool_decide (nm_id m = key)) narrativesMeta with
          | Some m => Ok (set narrs key (spread (spread [] (meta_obj m)) n))
          | None => Ok narrs
          end
      | _ => Throw TypeError
      end
  | None => Throw TypeError
  end.

(** the two loops, then [narrativesMeta.map(n => narratives[n.id])
    .filter(d => d)]: the filter drops [undefined] and keeps what is truthy,
    an assembled narrative or a member that [narratives] inherits under the
    id of a metadata entry *)
Definition selectNarratives (events : list Event) (narrativesMeta : list NarrativeMeta)
    (sources : obj Source) : result (list (property (obj Val))) :=
  narrs ← forEachM (add_event sources) events [];
  narrs ← forEachM (sort_and_merge narrativesMeta) (keys narrs) narrs;
  Ok (omap (fun n => read narrs (nm_id n)) narrativesMeta).

(** *** selectDatetimes *)

(** [2 * sizes.eventDotR + 5] *)
Definition lane_width : Z := (2 * eventDotR + 5)%Z.

(** [projects[project].start = dateMin(...)] and [projects[project].end =
    dateMax(...)], on the own property [project] *)
Definition widen (ts : string) (project : string) (pj : Project) : Project :=
  {| pj_start := dateMin (pj_start pj) ts; pj_end := dateMax (pj_end pj) ts |}.

(** the first half of the body of [events.forEach]: with the feature on,
    [event.tags.length] throws when the field is absent; the event gets its
    [project], the first tag or [null]; [projects.hasOwnProperty(project)]
    is called, and the interval of the project is widened, or assigned to
    [projects[project]] *)
Definition track_project (projects : obj Project) (event : Event)
    : result (DatetimeEvent * obj Project) :=
  if ASSOCIATIVE_EVENTS_BY_TAG features then
    match tags event with
    | None => Throw TypeError
    | Some ts =>
        let project := head ts in
        let event' := {| de_event := event; project := Some project;
                         projectOffset := None |} in
        match project with
        | Some p =>
            own ← hasOwnProperty projects p;
            Ok (event',
                if own : bool
                then update (widen (timestamp event)) projects p
                else assign projects p {| pj_start := timestamp event;
                                          pj_end := timestamp event |})
        | None => Ok (event', projects)
        end
    end
  else Ok ({| de_event := event; project := None; projectOffset := None |}, projects).

(** the second half of the body: the event joins the group of its
    timestamp.  The keys of [datetimes] are timestamps, that is dates: none
    is the name of an inherited member, so that [datetimes.hasOwnProperty]
    is the inherited method and the assignment creates an own property. *)
Definition group_datetime (datetimes : obj DatetimeGroup) (event : DatetimeEvent)
    : obj DatetimeGroup :=
  let timestamp := timestamp (de_event event) in
  match get datetimes timestamp with
  | Some g =>
      set datetimes timestamp
        {| dt_timestamp := dt_timestamp g; dt_date := dt_date g;
           dt_time := dt_time g; dt_events := dt_events g ++ [event] |}
  | None =>
      set datetimes timestamp
        {| dt_timestamp := timestamp; dt_date := date (de_event event);
           dt_time := time (de_event event); dt_events := [event] |}
  end.

(** the whole body of [events.forEach], on the pair of tables *)
Definition collect (st : obj Project * obj DatetimeGroup) (event : Event)
    : result (obj Project * obj DatetimeGroup) :=
  r ← track_project st.1 event;
  Ok (r.2, group_datetime st.2 r.1).

(** [dt >= projects[pj].start && dt <= projects[pj].end], on strings, for
    an own key [pj] of [projects] *)
Definition checkActive (projects : obj Project) (pj dt : string) : bool :=
  match get projects pj with
  | Some p => String.leb (pj_start p) dt && String.leb dt (pj_end p)
  | None => false
  end.

(** [activeProjects] for the timestamp [dt]: the active keys of [projKeys],
    in the order of [Object.keys(projects)] *)
Definition activeProjects (projects : obj Project) (dt : string) : list string :=
  filter (fun k => checkActive projects k dt) (keys projects).

(** [{...ev, projectOffset: activeProjects.indexOf(ev.project) * (...)}] *)
Definition with_offset (active : list string) (ev : DatetimeEvent) : DatetimeEvent :=
  {| de_event := de_event ev;
     project := project ev;
     projectOffset := Some (indexOf active (mjoin (project ev)) * lane_width)%Z |}.

(** the body of [sortedDts.forEach] *)
Definition assign_lanes (projects : obj Project) (datetimes : obj DatetimeGroup)
    (dt : string) : obj DatetimeGroup :=
  match get datetimes dt with
  | Some g =>
      set datetimes dt
        {| dt_timestamp := dt_timestamp g; dt_date := dt_date g; dt_time := dt_time g;
           dt_events := with_offset (activeProjects projects dt) <$> dt_events g |}
  | None => datetimes
  end.

(** the first loop, the sorted keys, the second loop, and
    [Object.values(datetimes)] *)
Definition selectDatetimes (events : sparse Event)
    : result (list DatetimeGroup) :=
  st ← forEachM collect (JsArray.elements events) ([], []);
  let projects := st.1 in
  let datetimes := st.2 in
  let sortedDts :=
    JsSort.sort (fun a b => (dateOf a - dateOf b)%Z) (keys datetimes) in
  Ok (values (fold_left (assign_lanes projects) sortedDts datetimes)).

(** *** selectCategoriesWithTimeline *)

(** [shuffle] of [./helpers]: the order in which the events are scanned. *)
Variable shuffle : list Event -> list Event.

(** the truth value of [hasLocated[cat]]: an inherited member is truthy *)
Definition hasLocated_at (hasLocated : obj bool) (cat : string) : bool :=
  match read hasLocated cat with
  | Some (Own b) => b
  | Some (Inherited _) => true
  | None => false
  end.

(** the [for ... of] loop, with its [break] and [continue]; the assignment
    [hasLocated[cat] = true] is reached for a [cat] that reads as falsy,
    which is no inherited member *)
Fixpoint scan (ncategories : nat) (hasLocated : obj bool) (events : list Event)
    : obj bool :=
  match events with
  | [] => hasLocated
  | event :: rest =>
      if (length (keys hasLocated) =? ncategories)%nat then hasLocated
      else
        let cat := category event in
        if hasLocated_at hasLocated cat then scan ncategories hasLocated rest
        else
          let isLocated := truthy (longitude event) && truthy (latitude event) in
          if isLocated then scan ncategories (set hasLocated cat true) rest
          else scan ncategories hasLocated rest
  end.

(** the early return, the scan, and the final filter *)
Definition selectCategoriesWithTimeline (categories : list Category)
    (events : list Event) : list Category :=
  if (length categories =? 0)%nat then categories
  else
    let hasLocated := scan (length categories) [] (shuffle events) in
    filter (fun cat => hasLocated_at hasLocated (cat_category cat)) categories.

(** *** Vocabulary of the statements about [selectEvents] *)

(** the three criteria of the event filter *)
Definition satisfies (activeTags activeCategories : list string)
    (timeRange : TimeRange) (E : Event) : Prop :=
  isTimeRangedIn E timeRange = true ∧
  (activeTags = [] ∨ ∃ tag ts, tags E = Some ts ∧ tag ∈ ts ∧ tag ∈ activeTags) ∧
  (activeCategories = [] ∨ category E ∈ activeCategories).

(** [E] is an entry of the keyed collection [out] *)
Definition appears (E : Event) (out : sparse Event) : Prop :=
  ∃ i, JsArray.get out i = Some E.

(** the events that pass the filter and carry the id [k], in input order *)
Definition matching (activeTags activeCategories : list string)
    (timeRange : TimeRange) (k : nat) (events : list Event) : list Event :=
  filter (fun e => isSelected activeTags activeCategories timeRange e && (id e =? k)%nat)
    events.

(** *** Vocabulary of the statements about [selectNarratives] *)

(** the narrative references of a collection, each with its event, in the
    order in which the loops meet them *)
Definition references (events : list Event) : list (string * Event) :=
  events ≫= (fun e => (fun n => (n, e)) <$> default [] (narratives e)).

(** the event has its [narratives], and none of them is the name of a
    member of [Object.prototype] *)
Definition plain_narratives (e : Event) : Prop :=
  ∃ ns, narratives e = Some ns ∧ Forall (fun n => n ∉ prototype_members) ns.

(** the narratives that some event refers to *)
Definition referenced (events : list Event) : list string := (references events).*1.

(** the steps pushed for the narrative [key], in the order of the pushes *)
Definition steps_for (sources : obj Source) (key : string) (events : list Event)
    : list Step :=
  (fun p => insetSourceFrom sources p.2)
    <$> filter (fun p => p.1 = key) (references events).


(** the object [{ id, steps }] *)
Definition skeleton_with (key : string) (steps : list Step) : obj Val :=
  [("id", VStr key); ("steps", VSteps steps)].

(** what [sort_and_merge] leaves under [key] *)
Definition assembled (narrativesMeta : list NarrativeMeta) (key : string)
    (steps : list Step) : obj Val :=
  let n := skeleton_with key (JsSort.sort compareTimestamp steps) in
  match List.find (fun m => bool_decide (nm_id m = key)) narrativesMeta with
  | Some m => spread (spread [] (meta_obj m)) n
  | None => n
  end.

(** the table of narratives after the references [refs] have been added *)
Definition collected (sources : obj Source) (refs : list (string * Event))
    (narrs : obj (obj Val)) : Prop :=
  NoDup narrs.*1 ∧
  ∀ k, get narrs k =
       if decide (k ∈ refs.*1)
       then Some (skeleton_with k
                    ((fun p => insetSourceFrom sources p.2)
                       <$> filter (fun p => p.1 = k) refs))
       else None.

(** the table while [sort_and_merge] runs, [visited] being the keys done *)
Definition merging (sources : obj Source) (narrativesMeta : list NarrativeMeta)
    (events : list Event) (visited : list string) (narrs : obj (obj Val)) : Prop :=
  ∀ k, get narrs k =
       if decide (k ∈ referenced events)
       then Some (if decide (k ∈ visited)
                  then assembled narrativesMeta k (steps_for sources k events)
                  else skeleton_with k (steps_for sources k events))
       else None.

(** *** Vocabulary of the statements about [selectDatetimes] *)

(** the distinct elements of a list, in the order of their first occurrence *)
Definition distinct (l : list string) : list string :=
  fold_left (fun acc x => if decide (x ∈ acc) then acc else acc ++ [x]) l [].

(** [a] occurs before [b] in [l] *)
Definition before (l : list string) (a b : string) : Prop :=
  ∃ i j : nat, (i < j)%nat ∧ l !! i = Some a ∧ l !! j = Some b.

(** the project of an event: its first tag *)
Definition first_tag (e : Event) : option string := tags e ≫= head.

(** the projects of the filtered events, in the order of their discovery *)
Definition discovered (events : sparse Event) : list string :=
  if ASSOCIATIVE_EVENTS_BY_TAG features
  then distinct (omap first_tag (JsArray.elements events))
  else [].

(** the event has its [tags], and its project, if it has one, is not the
    name of a member of [Object.prototype] *)
Definition plain_project (e : Event) : Prop :=
  is_Some (tags e) ∧ ∀ p, first_tag e = Some p → p ∉ prototype_members.

(** projects are off, or every filtered event has a plain project *)
Definition plain_projects (events : sparse Event) : Prop :=
  ASSOCIATIVE_EVENTS_BY_TAG features = false ∨
  Forall plain_project (JsArray.elements events).

(** the table [projects] when the first loop of [selectDatetimes] is over *)
Definition project_table (events : sparse Event) : obj Project :=
  match forEachM collect (JsArray.elements events) ([], []) with
  | Ok st => st.1
  | Throw _ => []
  end.

(** the projects that are active at the timestamp [dt], in lane order *)
Definition active_at (events : sparse Event) (dt : string) : list string :=
  activeProjects (project_table events) dt.

(** a datetime group with the lanes of its events assigned *)
Definition with_lanes (projects : obj Project) (dt : string) (g : DatetimeGroup)
    : DatetimeGroup :=
  {| dt_timestamp := dt_timestamp g; dt_date := dt_date g; dt_time := dt_time g;
     dt_events := with_offset (activeProjects projects dt) <$> dt_events g |}.

(** the timestamps of a list are in ascending order of date *)
Definition chronological (l : list string) : Prop :=
  ∀ (i : nat) a b, l !! i = Some a → l !! S i = Some b → (dateOf a <= dateOf b)%Z.

(** what the first loop of [selectDatetimes] maintains on events with plain
    projects, [seen] being the events visited so far *)
Record datetimes_inv (seen : list Event) (st : obj Project * obj DatetimeGroup)
    : Prop := {
  dti_projects : st.1.*1 = if ASSOCIATIVE_EVENTS_BY_TAG features
                          then distinct (omap first_tag seen) else [];
  dti_projects_nodup : NoDup st.1.*1;
  dti_keys : st.2.*1 = distinct (timestamp <$> seen);
  dti_nodup : NoDup st.2.*1;
  dti_groups : ∀ k g, get st.2 k = Some g →
                 dt_timestamp g = k ∧
                 ∀ e, e ∈ dt_events g → timestamp (de_event e) = k;
  dti_plain : ∀ k, k ∈ st.1.*1 → k ∉ prototype_members
}.

(** *** Vocabulary of the statements about [selectCategoriesWithTimeline] *)

(** the event has both coordinates *)
Definition located (e : Event) : bool :=
  truthy (longitude e) && truthy (latitude e).

(** some event of the category [c] is located *)
Definition has_located (events : list Event) (c : string) : bool :=
  existsb (fun e => bool_decide (category e = c) && located e) events.

(** what the scan maintains: the keys of [hasLocated] are distinct, they are
    categories of the collection, and every value is [true] *)
Definition scan_inv (categories : list Category) (hasLocated : obj bool) : Prop :=
  NoDup hasLocated.*1 ∧
  (∀ k, k ∈ hasLocated.*1 → k ∈ cat_category <$> categories) ∧
  (∀ k, k ∈ hasLocated.*1 → hasLocated_at hasLocated k = true).

End Selectors.

(** * Loop invariants *)

(** what the loop of [selectLocations] maintains, [seen] being the events
    visited so far *)
Record locations_inv (seen : list Event) (acc : obj LocationGroup) : Prop := {
  inv_nodup : NoDup acc.*1;
  inv_keyed : ∀ k g e, get acc k = Some g → e ∈ lg_events g →
                       to_key (location e) = k;
  inv_perm : mjoin (lg_events <$> acc.*2) ≡ₚ seen
}.

(** * A concrete configuration

    Stand-ins for the imported helpers, used to run the selectors on the
    worked examples. *)
Module Demo.

(** Modelled from the spec: [isTimeRangedIn] of [./helpers] is not among the
    sources; the time range is an inclusive lower and upper bound. *)
Definition isTimeRangedIn (event : Event) (timeRange : string * string) : bool :=
  String.leb timeRange.1 (timestamp event) && String.leb (timestamp event) timeRange.2.

Definition days_from_civil (y m d : Z) : Z :=
  let y' := if (m <=? 2)%Z then (y - 1)%Z else y in
  let era := (y' / 400)%Z in
  let yoe := (y' - era * 400)%Z in
  let mp := ((m + 9) mod 12)%Z in
  let doy := ((153 * mp + 2) / 5 + d - 1)%Z in
  let doe := (yoe * 365 + yoe / 4 - yoe / 100 + doy)%Z in
  (era * 146097 + doe - 719468)%Z.

(** The time value, in milliseconds, of [new Date(s)] for a date-only string
    [YYYY-MM-DD]; other strings are not parsed and yield 0. *)
Definition dateOf (s : string) : Z :=
  match digits_value 0 (String.substring 0 4 s),
        digits_value 0 (String.substring 5 2 s),
        digits_value 0 (String.substring 8 2 s) with
  | Some y, Some m, Some d =>
      (86400000 * days_from_civil (Z.of_N y) (Z.of_N m) (Z.of_N d))%Z
  | _, _, _ => 0%Z
  end.

(** Modelled from the spec: [dateMin] and [dateMax] of [../common/utilities]
    are not among the sources; they are the min and max by date comparison. *)
Definition dateMin (a b : string) : string := if (dateOf a <=? dateOf b)%Z then a else b.

(** Modelled from the spec: see [dateMin]. *)
Definition dateMax (a b : string) : string := if (dateOf b <=? dateOf a)%Z then a else b.

(** [sizes.eventDotR] *)
Definition eventDotR : Z := 8.

(** an event with the details of its sources inlined *)
Record Step := { step_event : Event; step_sources : list (option string) }.

(** Modelled from the spec: [insetSourceFrom] of [../common/utilities] is not
    among the sources; it expands a record with the details of the sources
    it references, taken from the mapping. *)
Definition insetSourceFrom (allSources : obj string) (event : Event) : Step :=
  {| step_event := event;
     step_sources := (fun s => get allSources s) <$> sources event |}.

(** Modelled from the spec: [compareTimestamp] of [../common/utilities] is
    not among the sources; it orders records by timestamp. *)
Definition compareTimestamp (a b : Step) : Z :=
  (dateOf (timestamp (step_event a)) - dateOf (timestamp (step_event b)))%Z.

Definition all_on : Features :=
  {| USE_SITES := true; USE_SOURCES := true; USE_SHAPES := true;
     ASSOCIATIVE_EVENTS_BY_TAG := true |}.

Definition all_off : Features :=
  {| USE_SITES := false; USE_SOURCES := false; USE_SHAPES := false;
     ASSOCIATIVE_EVENTS_BY_TAG := false |}.

Definition always : string * string := ("0000-01-01", "9999-12-31").

Definition event (i : nat) (ts cat : string) (tgs : option (list string)) : Event :=
  {| id := i; timestamp := ts; date := ts; time := "12:00"; category := cat;
     tags := tgs; narratives := Some []; sources := [];
     location := Some "A"; latitude := Some "47.7"; longitude := Some "32.2" |}.

Definition state0 : @State (string * string) string string Step :=
  {| domain := {| d_events := []; d_categories := []; d_narratives := [];
                  d_sources := [("s1", "report")];
                  d_sites := [{| site_label := "camp"; enabled := Some 1%Z |}];
                  d_shapes := ["line"] |};
     app := {| a_filters := {| f_tags := []; f_categories := [] |};
               a_range := always |} |}.

Definition stepTime (s : Step) : Z := dateOf (timestamp (step_event s)).

Definition in_narrative (i : nat) (ts n : string) : Event :=
  {| id := i; timestamp := ts; date := ts; time := "12:00"; category := "c1";
     tags := Some []; narratives := Some [n]; sources := ["s1"];
     location := Some "A"; latitude := Some "47.7"; longitude := Some "32.2" |}.

(** two events of the narrative [n1], the later one first, and the metadata
    of [n1] *)
Definition narrative_events : list Event :=
  [in_narrative 0 "2020-02-01" "n1"; in_narrative 1 "2020-01-01" "n1"].

Definition narrative_meta : list (@NarrativeMeta Step) :=
  [{| nm_id := "n1"; nm_fields := [("title", VStr "T")] |}].

(** two events with the id 0 *)
Definition same_id : list Event :=
  [event 0 "2020-01-01" "c1" None; event 0 "2020-01-01" "c2" None].

(** the output of the event filter on a collection, nothing filtered out *)
Definition unfiltered (events : list Event) : sparse Event :=
  selectEvents isTimeRangedIn events [] [] always.

(** two events of one day with the projects [alpha] and [beta] *)
Definition two_projects : list Event :=
  [event 0 "2020-01-01" "c1" (Some ["alpha"]);
   event 1 "2020-01-01" "c1" (Some ["beta"])].

(** the projects of [two_projects] that are active at a timestamp *)
Definition active_projects (dt : string) : list string :=
  active_at dateMin dateMax all_on (unfiltered two_projects) dt.

(** two events of one day with the projects [2] and [1] *)
Definition numbered_projects : list Event :=
  [event 0 "2020-01-01" "c1" (Some ["2"]);
   event 1 "2020-01-01" "c1" (Some ["1"])].

(** a later day listed before an earlier one *)
Definition later_first : list Event :=
  [event 0 "2020-02-01" "c1" (Some ["alpha"]);
   event 1 "2020-01-01" "c1" (Some ["alpha"])].

(** an event without the [tags] field, and one without [narratives] *)
Definition untagged : list Event := [event 0 "2020-01-01" "c1" None].

Definition without_narratives : Event :=
  {| id := 0; timestamp := "2020-01-01"; date := "2020-01-01"; time := "12:00";
     category := "c1"; tags := Some ["alpha"]; narratives := None; sources := [];
     location := Some "A"; latitude := Some "47.7"; longitude := Some "32.2" |}.

(** one category, and two located events, the first of a category that is
    not in the collection *)
Definition one_category : list Category :=
  [{| cat_category := "c1"; cat_description := "first" |}].

Definition foreign_first : list Event :=
  [event 0 "2020-01-01" "zzz" (Some []); event 1 "2020-01-02" "c1" (Some [])].

End Demo.

(** * The remaining selectors *)

Section OtherSelectors.

Context {Source Step : Type}.
(** [insetSourceFrom] of [../common/utilities] *)
Variable insetSourceFrom : obj Source -> Event -> Step.

(** the object literal [{ ...o, k: v }] *)
Definition with_field {V} (o : obj V) (k : string) (v : V) : obj V :=
  spread (spread [] o) [(k, v)].

(** [narrative ? { ...narrative, current } : null]; [None] is [null] *)
Definition selectActiveNarrative {V} (narrative : option (obj V)) (current : V)
    : option (obj V) :=
  match narrative with
  | Some n => Some (with_field n "current" current)
  | None => None
  end.

(** [selected.length === 0 ? [] : selected.map(insetSourceFrom(sources))] *)
Definition selectSelected (selected : list Event) (sources : obj Source) : list Step :=
  if (length selected =? 0)%nat then []
  else insetSourceFrom sources <$> selected.

(** The dimensions of the timeline are numbers of pixels: integers, which
    a number holds exactly up to 2^53 in absolute value, or [NaN]. *)
Inductive number :=
  | Int (n : Z)
  | NaN.

(** [x - k], where [x] is [None] when it is [undefined]: [undefined - k] and
    [NaN - k] are [NaN] *)
Definition minus (x : option number) (k : Z) : number :=
  match x with
  | Some (Int n) => Int (n - k)
  | Some NaN => NaN
  | None => NaN
  end.

(** [{ ...dimensions, trackHeight: dimensions.contentHeight - 50 }];
    [contentHeight] names no inherited member, so that the field is read
    among the own properties *)
Definition selectDimensions (dimensions : obj number) : obj number :=
  with_field dimensions "trackHeight" (minus (get dimensions "contentHeight") 50).

End OtherSelectors.

(** * Vocabulary of the further statements *)

(** the group that [selectLocations] builds from the events [e0 :: rest] of
    one location *)
Definition location_group (e0 : Event) (rest : list Event) : LocationGroup :=
  {| lg_label := location e0; lg_events := e0 :: rest;
     lg_latitude := latitude e0; lg_longitude := longitude e0 |}.

(** the table of [selectLocations] after the events [seen] *)
Definition located_table (seen : list Event) (acc : obj LocationGroup) : Prop :=
  acc.*1 = distinct ((fun e => to_key (location e)) <$> seen) ∧
  ∀ k, get acc k =
       match filter (fun e => to_key (location e) = k) seen with
       | [] => None
       | e0 :: rest => Some (location_group e0 rest)
       end.

(** the event as [selectDatetimes] stores it in its group *)
Definition annotated (features : Features) (e : Event) : DatetimeEvent :=
  {| de_event := e;
     project := if ASSOCIATIVE_EVENTS_BY_TAG features then Some (first_tag e) else None;
     projectOffset := None |}.

(** the tables of [selectDatetimes] after the events [seen] *)
Definition grouped_tables (dateMin dateMax : string -> string -> string)
    (features : Features) (seen : list Event)
    (st : obj Project * obj DatetimeGroup) : Prop :=
  (∀ p, get st.1 p =
        if ASSOCIATIVE_EVENTS_BY_TAG features then
          match timestamp <$> filter (fun e => first_tag e = Some p) seen with
          | [] => None
          | t0 :: ts => Some {| pj_start := fold_left dateMin ts t0;
                                pj_end := fold_left dateMax ts t0 |}
          end
        else None) ∧
  (∀ k, get st.2 k =
        match filter (fun e => timestamp e = k) seen with
        | [] => None
        | e0 :: rest =>
            Some {| dt_timestamp := k; dt_date := date e0; dt_time := time e0;
                    dt_events := annotated features <$> e0 :: rest |}
        end).

(** * Sample inputs of the further statements *)

Module Sample.

(** the smaller and the greater of two strings, in the order of [<=] on
    strings *)
Definition lexMin (a b : string) : string := if String.leb a b then a else b.
Definition lexMax (a b : string) : string := if String.leb a b then b else a.

(** two events, the greater id first *)
Definition descending_ids : list Event :=
  [Demo.event 1 "2020-01-01" "c1" (Some ["alpha"]);
   Demo.event 0 "2020-02-01" "c1" (Some ["alpha"])].

(** two located events of the category [c1] *)
Definition own_events : list Event :=
  [Demo.event 0 "2020-01-01" "c1" (Some []); Demo.event 1 "2020-01-02" "c1" (Some [])].

(** an active narrative, its fields as strings *)
Definition narrative : obj string := [("id", "n1"); ("label", "First")].

(** the dimensions of the timeline *)
Definition dimensions : obj number :=
  [("height", Int 250); ("contentHeight", Int 200)].

(** an event at the location [loc] *)
Definition located_at (i : nat) (loc : string) : Event :=
  {| id := i; timestamp := "2020-01-01"; date := "2020-01-01"; time := "12:00";
     category := "c1"; tags := Some []; narratives := Some []; sources := [];
     location := Some loc; latitude := Some "47.7"; longitude := Some "32.2" |}.

(** events at two locations, and an event at a location named like a
    member of [Object.prototype] *)
Definition two_locations : list Event :=
  [located_at 0 "B"; located_at 1 "A"; located_at 2 "B"].

Definition at_constructor : list Event := [located_at 0 "constructor"].

(** an event of a narrative named like a member of [Object.prototype], and
    a metadata entry named like another *)
Definition in_constructor : list Event :=
  [Demo.in_narrative 0 "2020-01-01" "constructor"].

Definition toString_meta : list (@NarrativeMeta Demo.Step) :=
  [{| nm_id := "toString"; nm_fields := [] |}].

(** two events of the project [hasOwnProperty], and one of the project
    [__proto__] *)
Definition shadowing : list Event :=
  [Demo.event 0 "2020-01-01" "c1" (Some ["hasOwnProperty"]);
   Demo.event 1 "2020-01-02" "c1" (Some ["hasOwnProperty"])].

Definition proto_project : list Event :=
  [Demo.event 0 "2020-01-01" "c1" (Some ["__proto__"])].

(** a category named like a member of [Object.prototype], and [c1] *)
Definition with_constructor : list Category :=
  [{| cat_category := "constructor"; cat_description := "inherited" |};
   {| cat_category := "c1"; cat_description := "first" |}].

End Sample.
(** * Properties of the run-time model *)

Module JsArrayFacts.
Import JsArray.

Lemma array_get_nil {A} (i : nat) : get ([] : sparse A) i = None.
Proof. by destruct i. Qed.

Lemma array_get_set {A} (a : sparse A) (i j : nat) (v : A) :
  get (set a i v) j = if decide (i = j) then Some v else get a j.
Proof.
  revert a j. induction i as [|i IH]; intros a j.
  - by destruct a, j.
  - destruct a as [|x a], j as [|j]; simpl; try done.
    + specialize (IH [] j). unfold get in *. simpl. rewrite IH.
      simpl. by repeat case_decide; try lia.
    + specialize (IH a j). unfold get in *. simpl. rewrite IH.
      by repeat case_decide; try lia.
Qed.

Lemma elem_of_elements {A} (a : sparse A) (x : A) :
  x ∈ elements a ↔ ∃ i, get a i = Some x.
Proof.
  unfold elements, get. rewrite list_elem_of_omap. split.
  - intros (o & Ho & Hx). simpl in Hx. subst o.
    apply list_elem_of_lookup in Ho as [i Hi].
    exists i. by rewrite Hi.
  - intros [i Hi]. destruct (a !! i) as [o|] eqn:E; simpl in Hi; [|done].
    exists o. split; [|done]. apply list_elem_of_lookup. eauto.
Qed.

End JsArrayFacts.

Module JsObjectFacts.
Import JsObject.

Section Facts.
Context {V : Type}.
Implicit Types (o : obj V) (k : string) (v : V).

Lemma get_set o k k' v :
  get (set o k v) k' = if decide (k' = k) then Some v else get o k'.
Proof.
  induction o as [|[k0 v0] o IH]; simpl.
  - by repeat case_decide.
  - destruct (decide (k = k0)) as [->|Hne]; simpl.
    + by destruct (decide (k' = k0)).
    + destruct (decide (k' = k0)) as [->|Hne']; [|done].
      by rewrite decide_False by done.
Qed.

Lemma get_None o k : get o k = None ↔ k ∉ o.*1.
Proof.
  induction o as [|[k0 v0] o IH]; simpl.
  - split; [intros _; apply not_elem_of_nil | done].
  - rewrite not_elem_of_cons.
    destruct (decide (k = k0)) as [->|Hne]; [by split; [|intros []]|].
    rewrite IH. tauto.
Qed.

Lemma get_Some_elem_of o k v : get o k = Some v → (k, v) ∈ o.
Proof.
  induction o as [|[k0 v0] o IH]; simpl; [done|].
  case_decide; subst.
  - intros [= ->]. left.
  - intros H'. right. by apply IH.
Qed.

Lemma elem_of_get o k v : NoDup o.*1 → (k, v) ∈ o → get o k = Some v.
Proof.
  induction o as [|[k0 v0] o IH]; simpl.
  - intros _ H'. by apply elem_of_nil in H'.
  - rewrite NoDup_cons. intros [Hk0 Hnd] [[= -> ->] | Hin]%elem_of_cons.
    + by rewrite decide_True.
    + case_decide; subst; [|by apply IH].
      exfalso. apply Hk0. apply list_elem_of_fmap. by exists (k0, v).
Qed.

Lemma keys_set_Some o k v :
  is_Some (get o k) → (set o k v).*1 = o.*1.
Proof.
  induction o as [|[k0 v0] o IH]; simpl.
  - by intros [? ?].
  - case_decide; subst; [done|]. intros H'. rewrite !fmap_cons.
    f_equal. by apply IH.
Qed.

Lemma set_None o k v : get o k = None → set o k v = o ++ [(k, v)].
Proof.
  induction o as [|[k0 v0] o IH]; simpl; [done|].
  case_decide; [done|]. intros H'. by rewrite IH.
Qed.

Lemma NoDup_keys_set o k v : NoDup o.*1 → NoDup (set o k v).*1.
Proof.
  intros Hnd. destruct (get o k) as [v0|] eqn:E.
  - by rewrite keys_set_Some.
  - rewrite set_None by done. rewrite fmap_app. simpl.
    apply NoDup_app. split_and!; [done| |apply NoDup_singleton].
    intros x Hx ->%list_elem_of_singleton. by apply get_None in E.
Qed.

Lemma keys_set o k v :
  (set o k v).*1 = if decide (k ∈ o.*1) then o.*1 else o.*1 ++ [k].
Proof.
  destruct (get o k) as [v0|] eqn:E.
  - rewrite keys_set_Some by eauto. rewrite decide_True; [done|].
    destruct (decide (k ∈ o.*1)) as [|Hn]; [done|].
    apply get_None in Hn. congruence.
  - rewrite set_None by done. rewrite decide_False by (by apply get_None).
    by rewrite fmap_app.
Qed.

(** updating the value of a key leaves the table elsewhere as it is *)
Lemma set_Some_fmap o k v :
  NoDup o.*1 → is_Some (get o k) →
  set o k v = (λ kv, if decide (kv.1 = k) then (k, v) else kv) <$> o.
Proof.
  induction o as [|[k0 v0] o IH]; simpl.
  - by intros _ [? ?].
  - rewrite NoDup_cons. intros [Hk0 Hnd] Hs.
    destruct (decide (k = k0)) as [->|Hne]; simpl.
    + rewrite decide_True by done. f_equal.
      rewrite <- (list_fmap_id o) at 1. apply list_fmap_ext.
      intros i [k1 v1] Hi. simpl. case_decide; [|done]. subst.
      exfalso. apply Hk0. apply list_elem_of_fmap. exists (k0, v1).
      split; [done|]. apply list_elem_of_lookup; eauto.
    + rewrite decide_False by done. f_equal. by apply IH.
Qed.

(** on a key that names no inherited member, [o[k]] is the own lookup *)
Lemma read_plain o k : k ∉ prototype_members → read o k = Own <$> get o k.
Proof. intros Hk. unfold read. destruct (get o k); [done|]. by rewrite decide_False. Qed.

Lemma read_own o k v : get o k = Some v → read o k = Some (Own v).
Proof. intros Hg. unfold read. by rewrite Hg. Qed.

(** a member that no own property shadows is inherited *)
Lemma read_inherited o k :
  k ∈ prototype_members → k ∉ o.*1 → read o k = Some (Inherited k).
Proof.
  intros Hk Ho. apply get_None in Ho. unfold read. by rewrite Ho, decide_True.
Qed.

Lemma read_None o k : read o k = None ↔ (k ∉ o.*1) ∧ (k ∉ prototype_members).
Proof.
  unfold read. rewrite <- get_None. destruct (get o k); [by split; [|intros []]|].
  case_decide; by split; [|intros []|..].
Qed.

Lemma assign_plain o k v : k ∉ prototype_members → assign o k v = set o k v.
Proof.
  intros Hk. unfold assign. rewrite decide_False; [done|].
  intros ->. apply Hk. by apply (bool_decide_unpack _).
Qed.

(** the inherited method tests the own keys, as long as none shadows it *)
Lemma hasOwnProperty_inherited o k :
  "hasOwnProperty" ∉ o.*1 →
  hasOwnProperty o k = Ok (bool_decide (is_Some (get o k))).
Proof. intros Ho. apply get_None in Ho. unfold hasOwnProperty. by rewrite Ho. Qed.

Lemma hasOwnProperty_shadowed o k :
  "hasOwnProperty" ∈ o.*1 → hasOwnProperty o k = Throw TypeError.
Proof.
  intros Ho. unfold hasOwnProperty.
  destruct (get o "hasOwnProperty") eqn:E; [done|]. by apply get_None in E.
Qed.

End Facts.
End JsObjectFacts.

Import JsObjectFacts.

Module JsObjectEnum.
Import JsObject.

Section Enum.
Context {V : Type}.
Implicit Types (o : obj V) (k : string) (v : V).

Lemma index_properties_cons (kv : string * V) o :
  index_properties (kv :: o)
  = match array_index kv.1 with
    | Some n => insert_index n kv (index_properties o)
    | None => index_properties o
    end.
Proof. done. Qed.

Lemma insert_index_Permutation (n : N) (kv : string * V) l :
  insert_index n kv l ≡ₚ (n, kv) :: l.
Proof.
  induction l as [|[m kv'] l IH]; simpl; [done|].
  destruct (n <=? m)%N; [done|]. rewrite IH. apply perm_swap.
Qed.

Lemma index_properties_Permutation o :
  (index_properties o).*2 ≡ₚ filter (λ kv, array_index kv.1 ≠ None) o.
Proof.
  induction o as [|[k v] o IH]; simpl; [done|].
  rewrite filter_cons. simpl. destruct (array_index k) as [n|] eqn:E.
  - rewrite decide_True by done.
    rewrite insert_index_Permutation, fmap_cons. simpl. by rewrite IH.
  - by rewrite decide_False by (by intros []).
Qed.

Lemma entries_Permutation o : entries o ≡ₚ o.
Proof.
  unfold entries, string_properties.
  rewrite index_properties_Permutation.
  induction o as [|[k v] o IH]; simpl; [done|].
  rewrite !filter_cons. simpl. destruct (array_index k) as [n|].
  - rewrite decide_True by done. rewrite decide_False by done.
    simpl. by rewrite IH.
  - rewrite decide_False by (by intros []). rewrite decide_True by done.
    rewrite <- Permutation_middle. by rewrite IH.
Qed.

Lemma index_properties_string_keys o :
  Forall (λ kv, array_index kv.1 = None) o → index_properties o = [].
Proof.
  induction 1 as [|[k v] o Hk _ IH]; simpl in *; [done|]. by rewrite Hk.
Qed.

Lemma entries_string_keys o :
  Forall (λ kv, array_index kv.1 = None) o → entries o = o.
Proof.
  intros Hall. unfold entries, string_properties.
  rewrite index_properties_string_keys by done. simpl.
  induction Hall as [|[k v] o Hk _ IH]; [done|].
  rewrite filter_cons. simpl in *. rewrite decide_True by done. by f_equal.
Qed.

End Enum.

Section Map.
Context {V W : Type} (f : string → V → W).
Lemma insert_index_on_values n kv (l : list (N * (string * V))) :
  insert_index n (on_values f kv) (prod_map (λ n : N, n) (on_values f) <$> l)
  = prod_map (λ n : N, n) (on_values f) <$> insert_index n kv l.
Proof.
  induction l as [|[m kv'] l IH]; [done|].
  rewrite fmap_cons. simpl. destruct (n <=? m)%N; [done|].
  rewrite fmap_cons. by rewrite IH.
Qed.

Lemma index_properties_on_values (o : obj V) :
  index_properties (on_values f <$> o) = prod_map (λ n : N, n) (on_values f) <$> index_properties o.
Proof.
  induction o as [|[k v] o IH]; [done|].
  rewrite fmap_cons, !index_properties_cons. simpl.
  destruct (array_index k); [|done].
  rewrite IH. apply (insert_index_on_values _ (k, v)).
Qed.

Lemma entries_on_values (o : obj V) :
  entries (on_values f <$> o) = on_values f <$> entries o.
Proof.
  unfold entries, string_properties. rewrite index_properties_on_values.
  rewrite fmap_app. f_equal.
  - rewrite <- !list_fmap_compose. by apply list_fmap_ext; intros ? [? ?] _.
  - induction o as [|[k v] o IH]; [done|].
    rewrite fmap_cons, !filter_cons. simpl.
    destruct (decide (array_index k = None)); rewrite IH; done.
Qed.

Lemma values_on_values (o : obj V) :
  values (on_values f <$> o) = (λ kv, f kv.1 kv.2) <$> entries o.
Proof.
  unfold values. rewrite entries_on_values, <- list_fmap_compose.
  by apply list_fmap_ext.
Qed.
End Map.

Section Update.
Context {V : Type} (F : string → V → V).
Implicit Types (o : obj V).

Lemma update_fmap o k :
  NoDup o.*1 →
  update F o k = (λ kv, if decide (kv.1 = k) then on_values F kv else kv) <$> o.
Proof.
  intros Hnd. unfold update. destruct (get o k) as [v|] eqn:E.
  - rewrite set_Some_fmap by eauto. apply list_fmap_ext.
    intros i [k1 v1] Hi. simpl. case_decide; [|done]. subst.
    unfold on_values. simpl. f_equal. f_equal.
    assert (get o k = Some v1) as E'.
    { apply elem_of_get; [done|]. apply list_elem_of_lookup; eauto. }
    congruence.
  - rewrite <- (list_fmap_id o) at 1. apply list_fmap_ext.
    intros i [k1 v1] Hi. simpl. case_decide; [|done]. subst.
    apply get_None in E. exfalso. apply E. apply list_elem_of_fmap.
    exists (k, v1). split; [done|]. apply list_elem_of_lookup; eauto.
Qed.

Lemma fold_update l o :
  NoDup o.*1 → NoDup l →
  fold_left (update F) l o
  = (λ kv, if decide (kv.1 ∈ l) then on_values F kv else kv) <$> o.
Proof.
  revert o. induction l as [|k l IH]; intros o Ho Hl.
  - simpl. rewrite <- (list_fmap_id o) at 1. apply list_fmap_ext.
    by intros i kv _.
  - apply NoDup_cons in Hl as [Hk Hl]. simpl.
    rewrite IH; [|rewrite update_fmap by done|done].
    + rewrite update_fmap by done. rewrite <- list_fmap_compose.
      apply list_fmap_ext. intros i [k1 v1] _. simpl.
      destruct (decide (k1 = k)) as [->|Hne]; simpl.
      * rewrite decide_False by done. by rewrite decide_True by left.
      * destruct (decide (k1 ∈ l)).
        -- by rewrite decide_True by (by right).
        -- rewrite decide_False; [done|]. by intros [?|?]%elem_of_cons.
    + rewrite <- list_fmap_compose.
      erewrite list_fmap_ext; [exact Ho|]. intros i [k1 v1] _. simpl.
      by case_decide.
Qed.

Lemma fold_update_all l o :
  NoDup o.*1 → l ≡ₚ o.*1 → fold_left (update F) l o = on_values F <$> o.
Proof.
  intros Ho Hl. rewrite fold_update; [|done|by rewrite Hl].
  apply list_fmap_ext. intros i [k v] Hi. simpl.
  rewrite decide_True; [done|]. rewrite Hl. apply list_elem_of_fmap.
  exists (k, v). split; [done|]. apply list_elem_of_lookup; eauto.
Qed.
End Update.
End JsObjectEnum.

Module JsSortFacts.
Import JsSort.
Section Facts.
Context {A : Type} (cmp : A → A → Z).

Lemma insert_Permutation x l : insert cmp x l ≡ₚ x :: l.
Proof.
  induction l as [|y l IH]; simpl; [done|].
  destruct (cmp x y <=? 0)%Z; [done|]. rewrite IH. apply perm_swap.
Qed.

Lemma sort_Permutation l : sort cmp l ≡ₚ l.
Proof.
  induction l as [|x l IH]; simpl; [done|].
  by rewrite insert_Permutation, IH.
Qed.

Hypothesis cmp_total : ∀ a b, (cmp a b <= 0)%Z ∨ (cmp b a <= 0)%Z.

Lemma ascending_cons x y l :
  (cmp x y <= 0)%Z → ascending cmp (y :: l) → ascending cmp (x :: y :: l).
Proof.
  intros Hxy Hl [|i] a b; simpl.
  - by intros [= ->] [= ->].
  - apply Hl.
Qed.

Lemma ascending_tail x l : ascending cmp (x :: l) → ascending cmp l.
Proof. intros Hl i a b. apply (Hl (S i)). Qed.

Lemma insert_ascending x l : ascending cmp l → ascending cmp (insert cmp x l).
Proof.
  induction l as [|y l IH]; simpl; intros Hl.
  - intros [|i] a b; simpl; [done|]. by rewrite lookup_nil.
  - destruct (cmp x y <=? 0)%Z eqn:E.
    + apply ascending_cons; [lia|done].
    + specialize (IH (ascending_tail _ _ Hl)).
      destruct l as [|z l]; simpl in *.
      * apply ascending_cons; [|done]. destruct (cmp_total x y); lia.
      * destruct (cmp x z <=? 0)%Z eqn:E'.
        -- apply ascending_cons; [|done]. destruct (cmp_total x y); lia.
        -- apply ascending_cons; [|done]. by apply (Hl 0).
Qed.

Lemma sort_ascending l : ascending cmp (sort cmp l).
Proof.
  induction l as [|x l IH]; simpl.
  - intros i a b. by rewrite lookup_nil.
  - by apply insert_ascending.
Qed.
End Facts.
End JsSortFacts.

Import JsArrayFacts JsObjectFacts JsObjectEnum JsSortFacts.

(** * The event filter *)

Section SelectEvents.
Context {TimeRange : Type} (isTimeRangedIn : Event → TimeRange → bool).
Context (activeTags activeCategories : list string) (timeRange : TimeRange).

Local Abbreviation sel := (isSelected isTimeRangedIn activeTags activeCategories timeRange).
Local Abbreviation sat := (satisfies isTimeRangedIn activeTags activeCategories timeRange).
Local Abbreviation out events :=
  (selectEvents isTimeRangedIn events activeTags activeCategories timeRange).
Local Abbreviation mat := (matching isTimeRangedIn activeTags activeCategories timeRange).

(** the test of the reduce callback is the conjunction of the three criteria *)
Lemma isSelected_satisfies E : sel E = true ↔ sat E.
Proof.
  unfold isSelected, satisfies, includes.
  rewrite !andb_true_iff, !orb_true_iff, !Nat.eqb_eq, !length_zero_iff_nil.
  rewrite bool_decide_eq_true.
  assert (match tags E with
          | Some ts => existsb (λ s, s) (map (λ tag, bool_decide (tag ∈ activeTags)) ts)
          | None => false
          end = true
          ↔ ∃ tag ts, tags E = Some ts ∧ tag ∈ ts ∧ tag ∈ activeTags) as ->.
  { destruct (tags E) as [ts|]; [|by split; [|intros (? & ? & ? & _)]].
    rewrite existsb_exists. split.
    - intros (b & Hb & ->). apply in_map_iff in Hb as (tag & Htag & Hin).
      apply bool_decide_eq_true in Htag. apply list_elem_of_In in Hin. eauto.
    - intros (tag & ? & [= <-] & Hin & Hact). exists true. split; [|done].
      apply in_map_iff. exists tag. split; [by apply bool_decide_eq_true|].
      by apply list_elem_of_In. }
  tauto.
Qed.

Lemma last_filter_Some {A} (P : A → bool) (l : list A) (x : A) :
  last (filter (λ y, P y) l) = Some x
  ↔ ∃ l1 l2, l = l1 ++ x :: l2 ∧ P x = true ∧ ∀ y, y ∈ l2 → P y = false.
Proof.
  induction l as [|y l IH] using rev_ind.
  - split; [done|]. intros (l1 & l2 & Hl & _). by destruct l1.
  - rewrite filter_app, filter_cons, filter_nil. simpl. destruct (P y) eqn:Py; simpl.
    + rewrite last_snoc. split.
      * intros [= ->]. exists l, []. split_and!; [done..|].
        by intros ? ?%elem_of_nil.
      * intros (l1 & l2 & Hl & Px & Hl2).
        destruct l2 as [|z l2 _] using rev_ind.
        -- apply app_inj_tail in Hl as [? ?]. by subst.
        -- rewrite app_comm_cons, app_assoc in Hl.
           apply app_inj_tail in Hl as [? ?]. subst.
           rewrite Hl2 in Py; [done|]. apply elem_of_app. right. left.
    + rewrite app_nil_r, IH. split.
      * intros (l1 & l2 & -> & Px & Hl2). exists l1, (l2 ++ [y]).
        split_and!; [by rewrite <- app_assoc|done|].
        intros z [?|Hz]%elem_of_app; [auto|]. by apply list_elem_of_singleton in Hz as ->.
      * intros (l1 & l2 & Hl & Px & Hl2).
        destruct l2 as [|z l2 _] using rev_ind.
        -- apply app_inj_tail in Hl as [? ?]. subst. congruence.
        -- rewrite app_comm_cons, app_assoc in Hl.
           apply app_inj_tail in Hl as [? ?]. subst. exists l1, l2.
           split_and!; [done..|]. intros w Hw. apply Hl2.
           apply elem_of_app. by left.
Qed.

Lemma get_selectEvents_from events acc k :
  JsArray.get
    (fold_left (λ acc event,
       if sel event then JsArray.set acc (id event) event else acc) events acc) k
  = match last (mat k events) with
    | Some e => Some e
    | None => JsArray.get acc k
    end.
Proof.
  revert acc. induction events as [|e events IH] using rev_ind; intros acc.
  { reflexivity. }
  rewrite fold_left_app. simpl. unfold matching.
  rewrite filter_app, filter_cons, filter_nil.
  destruct (sel e) eqn:Hsel; simpl.
  - rewrite array_get_set. destruct (decide (id e = k)) as [<-|Hne].
    + rewrite Nat.eqb_refl. simpl. by rewrite last_snoc.
    + apply Nat.eqb_neq in Hne. rewrite Hne. simpl.
      rewrite app_nil_r. apply IH.
  - rewrite app_nil_r. apply IH.
Qed.

Lemma get_selectEvents events k :
  JsArray.get (out events) k = last (mat k events).
Proof.
  unfold selectEvents. rewrite get_selectEvents_from, array_get_nil.
  by destruct (last _).
Qed.

(** Every entry of the output is stored under its own id. *)
Lemma selectEvents_keyed_by_id events i e :
  JsArray.get (out events) i = Some e → id e = i.
Proof.
  rewrite get_selectEvents. intros Hl.
  apply (last_filter_Some (λ e, sel e && (id e =? i)%nat)) in Hl
    as (l1 & l2 & _ & HP & _).
  apply andb_true_iff in HP as [_ HP]. by apply Nat.eqb_eq in HP.
Qed.

(** C1, as amended: an event appears in the output of [selectEvents] exactly
    when it occurs in the collection, its timestamp is in the time range,
    the tag criterion and the category criterion hold, and no event after it
    in the collection satisfies the three criteria and carries the same id. *)
Theorem selectEvents_appears_iff events E :
  appears E (out events)
  ↔ ∃ l1 l2, events = l1 ++ E :: l2 ∧ sat E ∧
             ∀ e, e ∈ l2 → sat e → id e ≠ id E.
Proof.
  unfold appears. split.
  - intros [i Hi]. pose proof (selectEvents_keyed_by_id _ _ _ Hi) as <-.
    rewrite get_selectEvents in Hi.
    apply (last_filter_Some (λ e, sel e && (id e =? id E)%nat)) in Hi
      as (l1 & l2 & -> & HP & Hl2).
    exists l1, l2. split; [done|]. apply andb_true_iff in HP as [HP _].
    split; [by apply isSelected_satisfies|].
    intros e He Hsat Hid. specialize (Hl2 e He).
    apply isSelected_satisfies in Hsat. rewrite Hsat, Hid, Nat.eqb_refl in Hl2. done.
  - intros (l1 & l2 & -> & Hsat & Hl2). exists (id E).
    rewrite get_selectEvents.
    apply (last_filter_Some (λ e, sel e && (id e =? id E)%nat)).
    exists l1, l2. split; [done|]. split.
    + apply isSelected_satisfies in Hsat. by rewrite Hsat, Nat.eqb_refl.
    + intros e He. destruct (sel e) eqn:Hs; [|done]. simpl.
      apply Nat.eqb_neq. apply Hl2; [done|]. by apply isSelected_satisfies.
Qed.

(** C10: when two or more events that satisfy the three criteria share an
    id, the output holds the last of them, in input order, under that id,
    and no other slot of the output holds an event with that id. *)
Theorem selectEvents_last_duplicate_wins events k :
  (2 ≤ length (mat k events))%nat →
  ∃ e, last (mat k events) = Some e ∧
       JsArray.get (out events) k = Some e ∧
       ∀ i e', JsArray.get (out events) i = Some e' → id e' = k → i = k.
Proof.
  intros Hlen. destruct (last (mat k events)) as [e|] eqn:Hlast.
  - exists e. split; [done|]. split; [by rewrite get_selectEvents|].
    intros i e' Hi <-. symmetry. by eapply selectEvents_keyed_by_id.
  - apply last_None in Hlast. rewrite Hlast in Hlen. simpl in Hlen. lia.
Qed.

End SelectEvents.

(** C1, the counterexample: of two events with the id 0 that both satisfy
    the criteria, the first does not appear in the output. *)
Lemma selectEvents_overwritten_event_absent :
  Demo.event 0 "2020-01-01" "c1" None ∈ Demo.same_id ∧
  satisfies Demo.isTimeRangedIn [] [] Demo.always
    (Demo.event 0 "2020-01-01" "c1" None) ∧
  ¬ appears (Demo.event 0 "2020-01-01" "c1" None)
      (selectEvents Demo.isTimeRangedIn Demo.same_id [] [] Demo.always).
Proof.
  split; [left|]. split.
  - split; [reflexivity|]. split; by left.
  - intros [i Hi]. destruct i as [|i]; vm_compute in Hi; [discriminate|].
    by destruct i.
Qed.

(** C10, a witness: two matching events with the id 0. *)
Lemma selectEvents_last_duplicate_wins_witness :
  ∃ e, last (matching Demo.isTimeRangedIn [] [] Demo.always 0 Demo.same_id) = Some e ∧
       JsArray.get
         (selectEvents Demo.isTimeRangedIn Demo.same_id [] [] Demo.always) 0 = Some e ∧
       ∀ i e',
         JsArray.get
           (selectEvents Demo.isTimeRangedIn Demo.same_id [] [] Demo.always) i = Some e' →
         id e' = 0 → i = 0.
Proof.
  apply (selectEvents_last_duplicate_wins Demo.isTimeRangedIn [] [] Demo.always).
  vm_compute. lia.
Defined.

(** * Location groups *)

Section Locations.

Implicit Types (acc : obj LocationGroup) (e : Event).

Lemma set_Some_split {V} (o : obj V) k v0 v :
  get o k = Some v0 →
  ∃ l1 l2, o = l1 ++ (k, v0) :: l2 ∧ set o k v = l1 ++ (k, v) :: l2.
Proof.
  induction o as [|[k1 v1] o IH]; simpl; [done|].
  destruct (decide (k = k1)) as [->|Hne].
  - intros [= ->]. by exists [], o.
  - intros Hg. destruct (IH Hg) as (l1 & l2 & -> & ->).
    by exists ((k1, v1) :: l1), l2.
Qed.

Lemma locate_inv seen acc e :
  to_key (location e) ∉ prototype_members →
  locations_inv seen acc →
  ∃ acc', locate acc e = Ok acc' ∧ locations_inv (seen ++ [e]) acc'.
Proof.
  intros Hplain [Hnd Hkey Hperm]. unfold locate. rewrite read_plain by done.
  destruct (get acc (to_key (location e))) as [g|] eqn:Hg; simpl.
  - eexists. split; [done|]. split.
    + by apply NoDup_keys_set.
    + intros k g' e'. rewrite get_set. case_decide; subst.
      * intros [= <-]. simpl.
        intros [?|Hin]%elem_of_app; [by eapply Hkey|].
        by apply list_elem_of_singleton in Hin as ->.
      * apply Hkey.
    + rewrite <- Hperm.
      destruct (set_Some_split acc _ g
        {| lg_label := lg_label g; lg_events := lg_events g ++ [e];
           lg_latitude := lg_latitude g; lg_longitude := lg_longitude g |} Hg)
        as (l1 & l2 & -> & ->).
      rewrite !fmap_app, !fmap_cons, !join_app. simpl.
      rewrite <- !app_assoc. apply Permutation_app_head.
      apply Permutation_app_head. simpl.
      apply Permutation_cons_append.
  - eexists. split; [done|]. rewrite set_None by done. split.
    + rewrite fmap_app. simpl. apply NoDup_app. split_and!; [done| |apply NoDup_singleton].
      intros x Hx Hx'. apply list_elem_of_singleton in Hx' as ->.
      by apply get_None in Hg.
    + intros k g' e'. rewrite <- (set_None acc _ {| lg_label := location e;
        lg_events := [e]; lg_latitude := latitude e; lg_longitude := longitude e |}) by done.
      rewrite get_set. case_decide; subst.
      * intros [= <-]. simpl. intros Hin.
        by apply list_elem_of_singleton in Hin as ->.
      * apply Hkey.
    + rewrite !fmap_app, join_app. simpl. by rewrite Hperm.
Qed.

Lemma forEach_locate_inv l seen acc :
  Forall (λ e, to_key (location e) ∉ prototype_members) l →
  locations_inv seen acc →
  ∃ acc', forEachM locate l acc = Ok acc' ∧ locations_inv (seen ++ l) acc'.
Proof.
  intros Hall. revert seen acc.
  induction Hall as [|e l He _ IH]; intros seen acc Hinv; simpl.
  - exists acc. by rewrite app_nil_r.
  - destruct (locate_inv seen acc e He Hinv) as (acc1 & -> & Hinv1). simpl.
    rewrite (cons_middle e), app_assoc. by apply IH.
Qed.

(** [selectLocations] returns when no location names an inherited member *)
Lemma selectLocations_Ok (events : sparse Event) :
  Forall (λ e, to_key (location e) ∉ prototype_members) (JsArray.elements events) →
  ∃ acc, selectLocations events = Ok (values acc) ∧
         locations_inv (JsArray.elements events) acc.
Proof.
  intros Hall. unfold selectLocations.
  destruct (forEach_locate_inv _ [] [] Hall) as (acc & -> & Hinv).
  { split; [constructor|done|done]. }
  by exists acc.
Qed.



(** a location that names an inherited member makes the loop throw *)
Lemma forEach_locate_throws l acc e :
  e ∈ l → to_key (location e) ∈ prototype_members →
  (∀ k, k ∈ acc.*1 → k ∉ prototype_members) →
  forEachM locate l acc = Throw TypeError.
Proof.
  intros Hin He. revert acc. induction l as [|x l IH]; intros acc Hacc.
  - by apply elem_of_nil in Hin.
  - simpl. destruct (decide (to_key (location x) ∈ prototype_members)) as [Hx|Hx].
    + unfold locate. rewrite read_inherited; [done|done|].
      intros Hk. by apply Hacc in Hk.
    + apply elem_of_cons in Hin as [->|Hin]; [done|].
      destruct (locate acc x) as [acc1|[]] eqn:Hloc; simpl; [|done].
      apply IH; [done|]. intros k Hk. unfold locate in Hloc.
      rewrite read_plain in Hloc by done.
      destruct (get acc (to_key (location x))); simpl in Hloc;
        injection Hloc as <-; rewrite keys_set in Hk; case_decide;
        try (by apply Hacc).
      all: apply elem_of_app in Hk as [?|Hk]; [by apply Hacc|].
      all: by apply list_elem_of_singleton in Hk as ->.
Qed.

End Locations.

Lemma NoDup_elements_from (a : sparse Event) n :
  (∀ i e, JsArray.get a i = Some e → id e = (n + i)%nat) →
  NoDup (JsArray.elements a) ∧ ∀ e, e ∈ JsArray.elements a → (n ≤ id e)%nat.
Proof.
  revert n. induction a as [|x a IH]; intros n Hid.
  - split; [constructor|]. by intros e ?%elem_of_nil.
  - destruct (IH (S n)) as [Hnd Hge].
    { intros i e Hi. rewrite (Hid (S i) e Hi). lia. }
    destruct x as [e0|].
    2: { split; [done|]. intros e He. apply Hge in He. lia. }
    unfold JsArray.elements in *. simpl. split.
    + constructor; [|done]. intros Hin. apply Hge in Hin.
      specialize (Hid 0%nat e0 eq_refl). lia.
    + intros e [->|Hin]%elem_of_cons.
      * specialize (Hid 0%nat e0 eq_refl). lia.
      * apply Hge in Hin. lia.
Qed.

Section LocationsOutput.
Context {TimeRange : Type} (isTimeRangedIn : Event → TimeRange → bool).
Context (activeTags activeCategories : list string) (timeRange : TimeRange).

Local Abbreviation filtered events :=
  (selectEvents isTimeRangedIn events activeTags activeCategories timeRange).

Lemma NoDup_selectEvents events : NoDup (JsArray.elements (filtered events)).
Proof.
  apply (NoDup_elements_from _ 0). intros i e Hi. simpl.
  by eapply selectEvents_keyed_by_id.
Qed.

End LocationsOutput.


(** * Gated accessors *)

Section Accessors.
Context {TimeRange Source Shape Step : Type}.

(** C9: with its capability flag off, [getSources] returns the empty
    mapping, [getSites] the empty sequence and [getShapes] the empty
    sequence, whatever the state tree holds. *)
Theorem gated_accessors_empty (features : Features)
    (state : @State TimeRange Source Shape Step) :
  (USE_SOURCES features = false → getSources features state = []) ∧
  (USE_SITES features = false → getSites features state = []) ∧
  (USE_SHAPES features = false → getShapes features state = []).
Proof.
  unfold getSources, getSites, getShapes. by split_and!; intros ->.
Qed.
End Accessors.

(** C9, a witness: a state with sources, sites and shapes, all flags off. *)
Lemma gated_accessors_empty_witness :
  getSources Demo.all_off Demo.state0 = [] ∧
  getSites Demo.all_off Demo.state0 = [] ∧
  getShapes Demo.all_off Demo.state0 = [].
Proof.
  destruct (gated_accessors_empty Demo.all_off Demo.state0) as (H1 & H2 & H3).
  split_and!; [apply H1 | apply H2 | apply H3]; reflexivity.
Defined.

(** * Narrative assembly *)

Lemma forEachM_app {A S} (body : S → A → result S) l1 l2 s :
  forEachM body (l1 ++ l2) s = s' ← forEachM body l1 s; forEachM body l2 s'.
Proof.
  revert s. induction l1 as [|x l1 IH]; intros s; simpl; [done|].
  destruct (body s x); simpl; [apply IH|done].
Qed.

Lemma filter_key_absent {V} (refs : list (string * V)) k :
  k ∉ refs.*1 → filter (λ p, p.1 = k) refs = [].
Proof.
  induction refs as [|[k' v] refs IH]; [done|].
  rewrite fmap_cons, not_elem_of_cons, filter_cons. simpl. intros [Hne Hin].
  rewrite decide_False by done. by apply IH.
Qed.

Section Narratives.
Context {Source Step : Type}.
Context (insetSourceFrom : obj Source → Event → Step).
Context (compareTimestamp : Step → Step → Z).
Context (sources : obj Source) (narrativesMeta : list (@NarrativeMeta Step)).

Local Abbreviation stepsOf key refs :=
  ((λ p : string * Event, insetSourceFrom sources p.2) <$> filter (λ p, p.1 = key) refs).

Local Abbreviation collected := (collected insetSourceFrom sources).
Local Abbreviation merging := (merging insetSourceFrom compareTimestamp sources narrativesMeta).

Lemma add_reference refs narrs narrative evt :
  narrative ∉ prototype_members →
  collected refs narrs →
  ∃ narrs',
    push_step
      match read narrs narrative with
      | Some _ => narrs
      | None => set narrs narrative (narrativeSkeleton narrative)
      end narrative (insetSourceFrom sources evt) = Ok narrs' ∧
    collected (refs ++ [(narrative, evt)]) narrs'.
Proof.
  intros Hplain [Hnd Hc]. rewrite (read_plain narrs) by done.
  replace (match Own <$> get narrs narrative with
           | Some _ => narrs
           | None => set narrs narrative (narrativeSkeleton narrative)
           end)
    with (match get narrs narrative with
          | Some _ => narrs
          | None => set narrs narrative (narrativeSkeleton narrative)
          end) by (by destruct (get narrs narrative)).
  set (narrs1 := match get narrs narrative with
                 | Some _ => narrs
                 | None => set narrs narrative (narrativeSkeleton narrative)
                 end).
  assert (∀ k, get narrs1 k
          = if decide (k = narrative)
            then Some (skeleton_with narrative (stepsOf narrative refs))
            else get narrs k) as Hn.
  { intros k. subst narrs1. pose proof (Hc narrative) as Hk.
    destruct (decide (narrative ∈ refs.*1)) as [Hin|Hin]; rewrite Hk.
    - case_decide; [by subst|done].
    - rewrite get_set. case_decide; [|done].
      by rewrite filter_key_absent. }
  unfold push_step. rewrite read_plain by done.
  rewrite (Hn narrative), decide_True by done. simpl.
  eexists. split; [done|]. split.
  { apply NoDup_keys_set. subst narrs1.
    destruct (get narrs narrative); [done|]. by apply NoDup_keys_set. }
  intros k. rewrite get_set.
  rewrite filter_app, (fmap_app _ (filter _ refs)).
  destruct (decide (k = narrative)) as [->|Hne].
  - rewrite decide_True by (rewrite fmap_app; apply elem_of_app; right; left).
    by rewrite filter_cons, decide_True by done.
  - rewrite Hn, decide_False by done. rewrite Hc.
    rewrite filter_cons.
    rewrite (decide_False (P := (narrative, evt).1 = k))
      by (simpl; intros Heq; apply Hne; symmetry; exact Heq).
    rewrite filter_nil.
    rewrite fmap_nil, app_nil_r.
    destruct (decide (k ∈ refs.*1)).
    + by rewrite decide_True by (rewrite fmap_app; apply elem_of_app; by left).
    + rewrite decide_False; [done|]. rewrite fmap_app.
      intros [?|Hin]%elem_of_app; [done|]. by apply list_elem_of_singleton in Hin.
Qed.

Lemma add_references refs narrs ns evt b :
  (ns ≠ [] → b = true) →
  Forall (λ n, n ∉ prototype_members) ns →
  collected refs narrs →
  ∃ narrs',
    forEachM (λ narrs narrative,
        let narrs :=
          match read narrs narrative with
          | Some _ => narrs
          | None => set narrs narrative (narrativeSkeleton narrative)
          end in
        if b then push_step narrs narrative (insetSourceFrom sources evt)
        else Ok narrs) ns narrs = Ok narrs' ∧
    collected (refs ++ ((λ n, (n, evt)) <$> ns)) narrs'.
Proof.
  intros Hb Hplain. revert refs narrs.
  induction Hplain as [|n ns Hn _ IH]; intros refs narrs Hc.
  - exists narrs. by rewrite app_nil_r.
  - rewrite Hb by done. simpl.
    destruct (add_reference refs narrs n evt Hn Hc) as (narrs1 & -> & Hc1). simpl.
    destruct (IH (λ _, Hb ltac:(done)) _ _ Hc1) as (narrs' & Hok & Hc').
    rewrite Hb in Hok by done. exists narrs'. split; [done|].
    by rewrite (cons_middle (n, evt)), app_assoc.
Qed.

Lemma add_event_collected refs narrs evt ns :
  narratives evt = Some ns →
  Forall (λ n, n ∉ prototype_members) ns →
  collected refs narrs →
  ∃ narrs', add_event insetSourceFrom sources narrs evt = Ok narrs' ∧
            collected (refs ++ ((λ n, (n, evt)) <$> ns)) narrs'.
Proof.
  intros Hns Hplain Hc. unfold add_event. rewrite Hns.
  apply add_references; [|done..]. by destruct ns.
Qed.

Lemma add_events_collected events seen narrs :
  Forall plain_narratives events →
  collected (references seen) narrs →
  ∃ narrs', forEachM (add_event insetSourceFrom sources) events narrs = Ok narrs' ∧
            collected (references (seen ++ events)) narrs'.
Proof.
  intros Hall. revert seen narrs.
  induction Hall as [|e events (ns & Hns & Hplain) _ IH]; intros seen narrs Hc.
  - exists narrs. by rewrite app_nil_r.
  - simpl. destruct (add_event_collected _ _ _ _ Hns Hplain Hc) as (narrs1 & -> & Hc1).
    simpl. destruct (IH (seen ++ [e]) narrs1) as (narrs' & Hok & Hc').
    + unfold references in *. rewrite bind_app. simpl. by rewrite Hns, app_nil_r.
    + exists narrs'. split; [done|]. by rewrite (cons_middle e), app_assoc.
Qed.

Lemma sort_and_merge_merging events visited narrs key :
  key ∈ referenced events → key ∉ visited →
  merging events visited narrs →
  ∃ narrs', sort_and_merge compareTimestamp narrativesMeta narrs key = Ok narrs' ∧
            merging events (visited ++ [key]) narrs'.
Proof.
  intros Hkey Hnew Hm. unfold sort_and_merge.
  rewrite (Hm key), decide_True, decide_False by done. simpl.
  destruct (find _ narrativesMeta) as [m|] eqn:Hfind; (eexists; split; [done|]).
  all: intros k; rewrite !get_set.
  all: destruct (decide (k = key)) as [->|Hne].
  all: try (rewrite decide_True by done;
            rewrite decide_True by (apply elem_of_app; right; left);
            unfold assembled; by rewrite Hfind).
  all: rewrite Hm; case_decide; [|done]; f_equal.
  all: destruct (decide (k ∈ visited)).
  all: try (by rewrite decide_True by (apply elem_of_app; by left)).
  all: rewrite decide_False; [done|].
  all: intros [?|Hin]%elem_of_app; [done|]; by apply list_elem_of_singleton in Hin.
Qed.

Lemma sort_and_merge_all events keys visited narrs :
  NoDup (visited ++ keys) → (∀ k, k ∈ keys → k ∈ referenced events) →
  merging events visited narrs →
  ∃ narrs', forEachM (sort_and_merge compareTimestamp narrativesMeta) keys narrs = Ok narrs' ∧
            merging events (visited ++ keys) narrs'.
Proof.
  revert visited narrs. induction keys as [|key keys IH]; intros visited narrs Hnd Hin Hm.
  - exists narrs. by rewrite app_nil_r.
  - simpl. destruct (sort_and_merge_merging events visited narrs key)
      as (narrs1 & -> & Hm1); [apply Hin; left| |done|].
    { apply NoDup_app in Hnd as (_ & Hd & _). intros Hv. apply (Hd _ Hv). left. }
    simpl. rewrite (cons_middle key), app_assoc in Hnd |- *.
    apply IH; [done| |done]. intros k Hk. apply Hin. by right.
Qed.

(** what [selectNarratives] returns when the events have plain narratives:
    for each metadata entry that some event refers to, the assembled
    narrative, and for each one whose id names an inherited member, that
    member *)
Lemma selectNarratives_Ok events :
  Forall plain_narratives events →
  selectNarratives insetSourceFrom compareTimestamp events narrativesMeta sources
  = Ok (omap (λ m,
          if decide (nm_id m ∈ referenced events)
          then Some (Own (assembled compareTimestamp narrativesMeta (nm_id m)
                            (steps_for insetSourceFrom sources (nm_id m) events)))
          else if decide (nm_id m ∈ prototype_members)
               then Some (Inherited (nm_id m)) else None) narrativesMeta).
Proof.
  intros Hall. unfold selectNarratives.
  destruct (add_events_collected events [] [] Hall) as (narrs1 & -> & [Hnd Hc]).
  { split; [constructor|done]. }
  simpl in Hc. simpl.
  assert (∀ k, k ∈ keys narrs1 ↔ k ∈ referenced events) as Hkeys.
  { intros k. unfold keys. rewrite entries_Permutation.
    pose proof (get_None narrs1 k) as Hn. rewrite Hc in Hn.
    unfold referenced. case_decide; split; intros ?; try done.
    - destruct (decide (k ∈ narrs1.*1)); [done|]. by apply Hn in n.
    - exfalso. by apply Hn. }
  destruct (sort_and_merge_all events (keys narrs1) [] narrs1)
    as (narrs2 & -> & Hm).
  { simpl. unfold keys. by rewrite entries_Permutation. }
  { intros k. apply Hkeys. }
  { intros k. rewrite Hc. unfold referenced, steps_for. by case_decide. }
  simpl. f_equal. apply list_omap_ext. apply Forall2_same_length_lookup.
  split; [done|]. intros i m m' Hi Hi'. simplify_eq. unfold read. rewrite Hm.
  case_decide; [|done]. by rewrite decide_True by (by apply Hkeys).
Qed.

End Narratives.

Section Spread.
Context {V : Type}.
Implicit Types (a b o : obj V).

Lemma get_app a b k :
  get (a ++ b) k = match get a k with Some v => Some v | None => get b k end.
Proof.
  induction a as [|[k' v'] a IH]; simpl; [done|]. by case_decide.
Qed.

Lemma get_spread a b k :
  get (spread a b) k
  = match get (reverse b) k with Some v => Some v | None => get a k end.
Proof.
  unfold spread. revert a. induction b as [|[k' v'] b IH]; intros a; simpl; [done|].
  rewrite IH, reverse_cons, get_app, get_set. simpl.
  destruct (get (reverse b) k); [done|]. by case_decide.
Qed.

Lemma NoDup_spread a b : NoDup a.*1 → NoDup (spread a b).*1.
Proof.
  unfold spread. revert a. induction b as [|[k' v'] b IH]; intros a Ha; simpl; [done|].
  apply IH. by apply NoDup_keys_set.
Qed.

Lemma get_reverse o k : NoDup o.*1 → get (reverse o) k = get o k.
Proof.
  intros Hnd. destruct (get o k) as [v|] eqn:E.
  - apply elem_of_get.
    + by rewrite fmap_reverse, reverse_Permutation.
    + apply elem_of_reverse. by apply get_Some_elem_of.
  - apply get_None. apply get_None in E. by rewrite fmap_reverse, elem_of_reverse.
Qed.

Lemma get_spread_copy o k : NoDup o.*1 → get (spread [] o) k = get o k.
Proof.
  intros Hnd. rewrite get_spread, get_reverse by done. by destruct (get o k).
Qed.
End Spread.

Section NarrativesOutput.
Context {Source Step : Type}.
Context (insetSourceFrom : obj Source → Event → Step).
Context (compareTimestamp : Step → Step → Z).
Context (sources : obj Source) (narrativesMeta : list (@NarrativeMeta Step)).

Local Abbreviation selected events :=
  (selectNarratives insetSourceFrom compareTimestamp events narrativesMeta sources).
Local Abbreviation asm := (assembled compareTimestamp narrativesMeta).
Local Abbreviation sorted_steps key events :=
  (JsSort.sort compareTimestamp (steps_for insetSourceFrom sources key events)).

Lemma NoDup_meta_obj (m : @NarrativeMeta Step) : NoDup (meta_obj m).*1.
Proof. apply NoDup_spread. constructor. Qed.

(** the fields of an assembled narrative that has a metadata entry *)
Lemma get_assembled m key steps f :
  find (λ m', bool_decide (nm_id m' = key)) narrativesMeta = Some m →
  get (asm key steps) f
  = if decide (f = "steps") then Some (VSteps (JsSort.sort compareTimestamp steps))
    else if decide (f = "id") then Some (VStr key)
    else get (meta_obj m) f.
Proof.
  intros Hfind. unfold assembled. rewrite Hfind.
  unfold spread at 1. simpl. rewrite !get_set.
  repeat case_decide; try done. apply get_spread_copy, NoDup_meta_obj.
Qed.


Lemma find_metadata (m0 : @NarrativeMeta Step) :
  m0 ∈ narrativesMeta →
  ∃ m, find (λ m', bool_decide (nm_id m' = nm_id m0)) narrativesMeta = Some m ∧
       m ∈ narrativesMeta ∧ nm_id m = nm_id m0.
Proof.
  intros Hin. destruct (find _ narrativesMeta) as [m|] eqn:Hfind.
  - exists m. split; [done|]. apply find_some in Hfind as [Hm Hid].
    split; [by apply list_elem_of_In|]. by apply bool_decide_eq_true in Hid.
  - apply list_elem_of_In in Hin.
    pose proof (find_none _ _ Hfind _ Hin) as Hno. simpl in Hno.
    by rewrite bool_decide_eq_false in Hno.
Qed.


(** the fields of the narratives of the output *)
Lemma selectNarratives_members events N :
  N ∈ omap (λ m,
        if decide (nm_id m ∈ referenced events)
        then Some (asm (nm_id m) (steps_for insetSourceFrom sources (nm_id m) events))
        else None) narrativesMeta →
  ∃ m, m ∈ narrativesMeta ∧
       find (λ m', bool_decide (nm_id m' = nm_id m)) narrativesMeta = Some m ∧
       get N "id" = Some (VStr (nm_id m)) ∧
       get N "steps" = Some (VSteps (sorted_steps (nm_id m) events)) ∧
       ∀ f, f ≠ "id" → f ≠ "steps" → get N f = get (meta_obj m) f.
Proof.
  intros (m0 & Hm0 & HN)%list_elem_of_omap.
  case_decide; [|done]. injection HN as <-.
  destruct (find_metadata m0 Hm0) as (m & Hfind & Hm & Hid).
  exists m. rewrite Hid. split; [done|]. split; [done|].
  split_and!.
  - by rewrite (get_assembled m).
  - by rewrite (get_assembled m).
  - intros f Hf1 Hf2. rewrite (get_assembled m) by done.
    by rewrite !decide_False by done.
Qed.


(** the narratives among the entries of the output *)
Lemma selectNarratives_own events N :
  Own N ∈ omap (λ m,
        if decide (nm_id m ∈ referenced events)
        then Some (Own (asm (nm_id m)
                          (steps_for insetSourceFrom sources (nm_id m) events)))
        else if decide (nm_id m ∈ prototype_members)
             then Some (Inherited (nm_id m)) else None) narrativesMeta →
  N ∈ omap (λ m,
        if decide (nm_id m ∈ referenced events)
        then Some (asm (nm_id m) (steps_for insetSourceFrom sources (nm_id m) events))
        else None) narrativesMeta.
Proof.
  intros (m & Hm & HN)%list_elem_of_omap. apply list_elem_of_omap.
  exists m. split; [done|]. repeat case_decide; by simplify_eq.
Qed.



(** C6: when every event carries its narrative references, none of them
    the name of a member of [Object.prototype], and [compareTimestamp] is a
    comparator for the time [stepTime] of the timestamps (negative, zero or
    positive as the first time is before, equal to or after the second),
    [selectNarratives] returns, and the steps of every narrative of its
    output are in ascending order of time, whatever the order of the events
    in the collection. *)
Theorem selectNarratives_steps_ascending (stepTime : Step → Z) events :
  (∀ a b, Z.sgn (compareTimestamp a b) = Z.sgn (stepTime a - stepTime b)) →
  Forall plain_narratives events →
  ∃ out, selected events = Ok out ∧
    ∀ N steps i a b, Own N ∈ out → get N "steps" = Some (VSteps steps) →
      steps !! i = Some a → steps !! S i = Some b → (stepTime a <= stepTime b)%Z.
Proof.
  intros Hsgn Hall.
  assert (∀ a b, (compareTimestamp a b <= 0)%Z ↔ (stepTime a <= stepTime b)%Z)
    as Hcmp.
  { intros a b. specialize (Hsgn a b). lia. }
  eexists. split; [by apply selectNarratives_Ok|].
  intros N steps i a b Hin Hsteps Ha Hb. apply selectNarratives_own in Hin.
  destruct (selectNarratives_members events N Hin) as (m & _ & _ & _ & Hsorted & _).
  rewrite Hsorted in Hsteps. injection Hsteps as <-.
  apply Hcmp. eapply (sort_ascending compareTimestamp); [|done..].
  intros x y. rewrite !Hcmp. lia.
Qed.

End NarrativesOutput.

(** the narratives of [Demo.narrative_events] and the ids and fields of
    [Demo.narrative_meta] are plain *)
Lemma narrative_events_plain : Forall plain_narratives Demo.narrative_events.
Proof.
  repeat constructor; (eexists; split; [reflexivity|]);
    repeat constructor; by apply (bool_decide_unpack _).
Qed.


(** C6, a witness: the same events, the later one first in the collection. *)
Lemma selectNarratives_steps_ascending_witness :
  ∃ out, selectNarratives Demo.insetSourceFrom Demo.compareTimestamp
           Demo.narrative_events Demo.narrative_meta [] = Ok out ∧
    ∀ N steps i a b, Own N ∈ out → get N "steps" = Some (VSteps steps) →
      steps !! i = Some a → steps !! S i = Some b →
      (Demo.stepTime a <= Demo.stepTime b)%Z.
Proof.
  apply (selectNarratives_steps_ascending Demo.insetSourceFrom
           Demo.compareTimestamp [] Demo.narrative_meta Demo.stepTime
           Demo.narrative_events).
  - reflexivity.
  - exact narrative_events_plain.
Defined.

(** * Datetime groups and lanes *)

Lemma distinct_snoc l x :
  distinct (l ++ [x])
  = if decide (x ∈ distinct l) then distinct l else distinct l ++ [x].
Proof. unfold distinct. by rewrite fold_left_app. Qed.

Lemma elem_of_distinct l x : x ∈ distinct l ↔ x ∈ l.
Proof.
  induction l as [|y l IH] using rev_ind; [done|].
  rewrite distinct_snoc, elem_of_app, list_elem_of_singleton, <- IH.
  case_decide; [|by rewrite elem_of_app, list_elem_of_singleton].
  split; [by left|]. by intros [?| ->].
Qed.

Lemma string_properties_keys {V} (o : obj V) :
  (string_properties o).*1 = filter (λ k, array_index k = None) o.*1.
Proof.
  unfold string_properties. induction o as [|[k v] o IH]; [done|].
  rewrite fmap_cons, !filter_cons. simpl. case_decide; [|done].
  rewrite fmap_cons. by f_equal.
Qed.

Lemma keys_string_keys {V} (o : obj V) :
  (∀ k, k ∈ o.*1 → array_index k = None) → keys o = o.*1.
Proof.
  intros Hk. unfold keys. rewrite entries_string_keys; [done|].
  apply Forall_forall. intros [k v] Hin. apply Hk.
  apply list_elem_of_fmap. by exists (k, v).
Qed.

Lemma NoDup_keys {V} (o : obj V) : NoDup o.*1 → NoDup (keys o).
Proof. unfold keys. by rewrite entries_Permutation. Qed.

Lemma before_split l a b :
  before l a b → ∃ l1 l2 l3, l = l1 ++ a :: l2 ++ b :: l3.
Proof.
  intros (i & j & Hij & Hi & Hj).
  apply list_elem_of_split_length in Hi as (l1 & l' & -> & ->).
  rewrite lookup_app_r in Hj by lia.
  destruct (j - length l1)%nat as [|n] eqn:E; [lia|]. simpl in Hj.
  apply list_elem_of_split_length in Hj as (l2 & l3 & -> & _).
  by exists l1, l2, l3.
Qed.

Lemma indexOf_from_lookup n l (i : nat) x :
  NoDup l → l !! i = Some x → indexOf_from n l x = (n + Z.of_nat i)%Z.
Proof.
  revert n i. induction l as [|y l IH]; intros n i Hnd Hi; [done|].
  apply NoDup_cons in Hnd as [Hy Hnd]. simpl. destruct i as [|i]; simpl in Hi.
  - injection Hi as ->. rewrite decide_True by done. lia.
  - rewrite decide_False.
    + rewrite (IH _ i) by done. lia.
    + intros ->. apply Hy. apply list_elem_of_lookup. eauto.
Qed.

Lemma indexOf_from_absent n l x : x ∉ l → indexOf_from n l x = (-1)%Z.
Proof.
  revert n. induction l as [|y l IH]; intros n Hx; [done|].
  apply not_elem_of_cons in Hx as [Hne Hx]. simpl.
  rewrite decide_False by done. by apply IH.
Qed.

(** two active projects whose keys are no array indices keep, among the
    active projects, the order of their creation *)
Lemma activeProjects_order (projects : obj Project) dt A B :
  before projects.*1 A B →
  array_index A = None → array_index B = None →
  A ∈ activeProjects projects dt → B ∈ activeProjects projects dt →
  ∃ i j : nat, (i < j)%nat ∧ activeProjects projects dt !! i = Some A ∧
               activeProjects projects dt !! j = Some B.
Proof.
  intros (l1 & l2 & l3 & Hl)%before_split HA HB HinA HinB.
  unfold activeProjects in *.
  apply list_elem_of_filter in HinA as [HcA _].
  apply list_elem_of_filter in HinB as [HcB _].
  unfold keys, entries. rewrite fmap_app, string_properties_keys, Hl.
  rewrite filter_app. rewrite (filter_app _ l1), filter_cons, decide_True by done.
  rewrite (filter_app _ l2), filter_cons, decide_True by done.
  rewrite (filter_app _ (filter _ l1)), filter_cons, decide_True by done.
  rewrite (filter_app _ (filter _ l2)), filter_cons, decide_True by done.
  set (p0 := filter _ (_.*2).*1). set (p1 := filter _ (filter _ l1)).
  set (p2 := filter _ (filter _ l2)). set (p3 := filter _ (filter _ l3)).
  exists (length (p0 ++ p1)), (length ((p0 ++ p1) ++ A :: p2)).
  split; [rewrite (length_app _ (A :: p2)); simpl; lia|]. split.
  - rewrite app_assoc. apply list_lookup_middle. done.
  - rewrite app_assoc, (app_comm_cons p2), app_assoc.
    apply list_lookup_middle. done.
Qed.

Section Datetimes.
Context (dateMin dateMax : string → string → string).
Context (eventDotR : Z) (dateOf : string → Z) (features : Features).

Local Abbreviation inv := (datetimes_inv features).
Local Abbreviation coll := (collect dateMin dateMax features).

Lemma group_datetime_keys datetimes event :
  (group_datetime datetimes event).*1
  = if decide (timestamp (de_event event) ∈ datetimes.*1)
    then datetimes.*1 else datetimes.*1 ++ [timestamp (de_event event)].
Proof. unfold group_datetime. destruct (get _ _); apply keys_set. Qed.

Lemma group_datetime_groups datetimes event :
  (∀ k g, get datetimes k = Some g →
     dt_timestamp g = k ∧ ∀ e, e ∈ dt_events g → timestamp (de_event e) = k) →
  ∀ k g, get (group_datetime datetimes event) k = Some g →
     dt_timestamp g = k ∧ ∀ e, e ∈ dt_events g → timestamp (de_event e) = k.
Proof.
  intros Hg k g. unfold group_datetime.
  destruct (get datetimes (timestamp (de_event event))) as [g0|] eqn:E;
    rewrite get_set; (case_decide; [subst k|by apply Hg]); intros [= <-]; simpl.
  - destruct (Hg _ _ E) as [Ht He]. split; [done|].
    intros e [?|Hin]%elem_of_app; [by apply He|].
    by apply list_elem_of_singleton in Hin as ->.
  - split; [done|]. intros e Hin. by apply list_elem_of_singleton in Hin as ->.
Qed.

Lemma track_project_Ok projects event :
  (ASSOCIATIVE_EVENTS_BY_TAG features = false ∨ plain_project event) →
  (∀ k, k ∈ projects.*1 → k ∉ prototype_members) →
  ∃ ev projects',
    track_project dateMin dateMax features projects event = Ok (ev, projects') ∧
    de_event ev = event ∧
    projects'.*1
    = (if ASSOCIATIVE_EVENTS_BY_TAG features
       then match first_tag event with
            | Some p => if decide (p ∈ projects.*1) then projects.*1
                        else projects.*1 ++ [p]
            | None => projects.*1
            end
       else projects.*1).
Proof.
  intros Hok Hplain. unfold track_project, plain_project, first_tag in *.
  destruct (ASSOCIATIVE_EVENTS_BY_TAG features).
  - destruct Hok as [?|[[ts Hts] Hp]]; [done|]. rewrite Hts in Hp |- *. simpl in *.
    destruct (head ts) as [p|]; [|by eexists _, _].
    rewrite hasOwnProperty_inherited.
    2: { intros Hk. apply (Hplain _ Hk). by apply (bool_decide_unpack _). }
    simpl. eexists _, _. split_and!; [done..|].
    destruct (get projects p) as [pj|] eqn:E.
    + rewrite bool_decide_eq_true_2 by eauto. unfold update. rewrite E. apply keys_set.
    + rewrite bool_decide_eq_false_2 by (by intros [? ?]).
      rewrite assign_plain by (by apply Hp). apply keys_set.
  - by eexists _, _.
Qed.

Lemma collect_inv seen st event :
  (ASSOCIATIVE_EVENTS_BY_TAG features = false ∨ plain_project event) →
  inv seen st →
  ∃ st', coll st event = Ok st' ∧ inv (seen ++ [event]) st'.
Proof.
  intros Hok [HP HPnd HD HDnd Hg Hplain]. unfold collect.
  destruct (track_project_Ok st.1 event Hok Hplain)
    as (ev & projects' & -> & Hev & Hkeys).
  simpl. eexists. split; [done|]. split; simpl.
  - rewrite Hkeys. destruct (ASSOCIATIVE_EVENTS_BY_TAG features); [|done].
    rewrite omap_app. simpl. destruct (first_tag event) as [p|]; simpl.
    + by rewrite distinct_snoc, <- HP.
    + by rewrite app_nil_r.
  - rewrite Hkeys. destruct (ASSOCIATIVE_EVENTS_BY_TAG features); [|done].
    destruct (first_tag event) as [p|]; [|done]. case_decide; [done|].
    apply NoDup_app. split_and!; [done| |apply NoDup_singleton].
    intros x Hx Hx'. by apply list_elem_of_singleton in Hx' as ->.
  - rewrite group_datetime_keys, fmap_app.
    change (timestamp <$> [event]) with [timestamp event].
    by rewrite distinct_snoc, Hev, HD.
  - rewrite group_datetime_keys. case_decide; [done|].
    apply NoDup_app. split_and!; [done| |apply NoDup_singleton].
    intros x Hx Hx'. by apply list_elem_of_singleton in Hx' as ->.
  - by apply group_datetime_groups.
  - intros k. rewrite Hkeys.
    destruct (ASSOCIATIVE_EVENTS_BY_TAG features); [|apply Hplain].
    destruct Hok as [?|[_ Hp]]; [done|].
    destruct (first_tag event) as [p|]; [|apply Hplain].
    case_decide; [apply Hplain|].
    intros [?|Hk]%elem_of_app; [by apply Hplain|].
    apply list_elem_of_singleton in Hk as ->. by apply Hp.
Qed.

Lemma collect_all_inv events seen st :
  (ASSOCIATIVE_EVENTS_BY_TAG features = false ∨ Forall plain_project events) →
  inv seen st →
  ∃ st', forEachM coll events st = Ok st' ∧ inv (seen ++ events) st'.
Proof.
  revert seen st. induction events as [|e events IH]; intros seen st Hok Hinv.
  - exists st. by rewrite app_nil_r.
  - simpl. destruct (collect_inv seen st e) as (st1 & -> & Hinv1); [|done|].
    { destruct Hok as [?|Hall]; [by left|right]. by apply Forall_cons in Hall as [? _]. }
    simpl. rewrite (cons_middle e), app_assoc. apply IH; [|done].
    destruct Hok as [?|Hall]; [by left|right]. by apply Forall_cons in Hall as [_ ?].
Qed.

Local Abbreviation datetimes events := (selectDatetimes dateMin dateMax eventDotR dateOf features events).
Local Abbreviation table := (project_table dateMin dateMax features).
Local Abbreviation ok := (plain_projects features).

(** the second loop assigns the lanes of every group, and the groups are
    returned in the enumeration order of the table *)
Lemma assign_lanes_all projects (datetimes : obj DatetimeGroup) :
  NoDup datetimes.*1 →
  values (fold_left (assign_lanes eventDotR projects)
            (JsSort.sort (λ a b, (dateOf a - dateOf b)%Z) (keys datetimes)) datetimes)
  = (λ kv, with_lanes eventDotR projects kv.1 kv.2) <$> entries datetimes.
Proof.
  intros Hnd.
  change (assign_lanes eventDotR projects)
    with (update (with_lanes eventDotR projects)).
  rewrite fold_update_all; [apply values_on_values|done|].
  rewrite sort_Permutation. unfold keys. by rewrite entries_Permutation.
Qed.

Lemma selectDatetimes_Ok (events : sparse Event) :
  ok events →
  ∃ st, forEachM coll (JsArray.elements events) ([], []) = Ok st ∧
        inv (JsArray.elements events) st ∧
        table events = st.1 ∧
        datetimes events
        = Ok ((λ kv, with_lanes eventDotR st.1 kv.1 kv.2) <$> entries st.2).
Proof.
  intros Hok.
  destruct (collect_all_inv (JsArray.elements events) [] ([], []) Hok)
    as (st & Hst & Hinv).
  { split; simpl; try done; try constructor.
    - by destruct (ASSOCIATIVE_EVENTS_BY_TAG _).
    - by intros k ?%elem_of_nil. }
  exists st. split; [done|]. split; [done|]. unfold project_table, selectDatetimes.
  rewrite Hst. simpl. split; [done|]. f_equal. apply assign_lanes_all.
  by destruct Hinv.
Qed.

Local Abbreviation active := (active_at dateMin dateMax features).
Local Abbreviation width := (lane_width eventDotR).

(** C4, as amended: when every filtered event has its tags and no first
    tag that names a member of [Object.prototype] (or projects are off), and
    no timestamp is an array-index string, [selectDatetimes] returns one
    group per distinct timestamp, in the order in which the timestamps first
    occur among the filtered events. *)
Theorem selectDatetimes_first_occurrence_order (events : sparse Event) :
  ok events →
  Forall (λ e, array_index (timestamp e) = None) (JsArray.elements events) →
  ∃ out, datetimes events = Ok out ∧
         dt_timestamp <$> out = distinct (timestamp <$> JsArray.elements events).
Proof.
  intros Hok Hts.
  destruct (selectDatetimes_Ok events Hok) as (st & _ & [_ _ HD Hnd Hg _] & _ & ->).
  eexists. split; [done|].
  assert (entries st.2 = st.2) as ->.
  { apply entries_string_keys, Forall_forall. intros [k g] Hin.
    assert (k ∈ distinct (timestamp <$> JsArray.elements events)) as Hk.
    { rewrite <- HD. apply list_elem_of_fmap. by exists (k, g). }
    apply elem_of_distinct, list_elem_of_fmap in Hk as (e & -> & He).
    by eapply Forall_forall in Hts. }
  rewrite <- HD, <- list_fmap_compose. apply list_fmap_ext.
  intros i [k g] Hi. simpl. apply Hg, elem_of_get; [done|].
  apply list_elem_of_lookup; eauto.
Qed.

(** the groups of the output, their events and their offsets *)
Lemma selectDatetimes_offsets (events : sparse Event) :
  ok events →
  ∃ out, datetimes events = Ok out ∧
    ∀ g e, g ∈ out → e ∈ dt_events g →
      timestamp (de_event e) = dt_timestamp g ∧
      projectOffset e
      = Some (indexOf (active events (dt_timestamp g)) (mjoin (project e)) * width)%Z.
Proof.
  intros Hok.
  destruct (selectDatetimes_Ok events Hok) as (st & _ & [_ _ _ Hnd Hg _] & Htab & ->).
  unfold active_at. rewrite Htab.
  eexists. split; [done|]. intros g e Hin He.
  apply list_elem_of_fmap in Hin as ([k g0] & -> & Hin). simpl in *.
  rewrite entries_Permutation in Hin. apply elem_of_get in Hin; [|done].
  destruct (Hg _ _ Hin) as [-> Hev].
  apply list_elem_of_fmap in He as (e0 & -> & He0). simpl. split; [|done].
  by apply Hev.
Qed.

Lemma project_table_keys (events : sparse Event) :
  ok events →
  (project_table dateMin dateMax features events).*1 = discovered features events ∧
  NoDup (project_table dateMin dateMax features events).*1.
Proof.
  intros Hok.
  destruct (selectDatetimes_Ok events Hok) as (st & _ & [HP HPnd _ _ _ _] & -> & _).
  done.
Qed.

(** C2, as amended: with a non-negative dot radius, and every filtered
    event having its tags and no first tag that names a member of
    [Object.prototype] (or projects off): for two events of the output that
    share a timestamp and whose projects A and B are both active at that
    timestamp and are no array-index strings, if A was discovered before B
    then the offsets are i*(2R+5) and j*(2R+5), where i < j are the
    positions of A and B among the projects active at that timestamp, so
    A's offset is strictly less than B's; and an event whose project is not
    active at its timestamp (no project field, null project or inactive
    project) gets the offset -(2R+5). *)
Theorem selectDatetimes_lane_offsets (events : sparse Event) :
  (0 <= eventDotR)%Z →
  ok events →
  ∃ out, datetimes events = Ok out ∧
    (∀ g1 g2 e1 e2 A B,
       g1 ∈ out → g2 ∈ out → e1 ∈ dt_events g1 → e2 ∈ dt_events g2 →
       timestamp (de_event e1) = timestamp (de_event e2) →
       project e1 = Some (Some A) → project e2 = Some (Some B) →
       A ∈ active events (timestamp (de_event e1)) →
       B ∈ active events (timestamp (de_event e1)) →
       array_index A = None → array_index B = None →
       before (discovered features events) A B →
       ∃ (i j : nat) (o1 o2 : Z),
         (i < j)%nat ∧
         active events (timestamp (de_event e1)) !! i = Some A ∧
         active events (timestamp (de_event e1)) !! j = Some B ∧
         projectOffset e1 = Some o1 ∧ projectOffset e2 = Some o2 ∧
         o1 = (Z.of_nat i * width)%Z ∧ o2 = (Z.of_nat j * width)%Z ∧
         (o1 < o2)%Z) ∧
    (∀ g e, g ∈ out → e ∈ dt_events g →
       (∀ A, project e = Some (Some A) →
             A ∉ active events (timestamp (de_event e))) →
       projectOffset e = Some (- width)%Z).
Proof.
  intros HR Hok.
  destruct (selectDatetimes_offsets events Hok) as (out & Hout & Hoff).
  destruct (project_table_keys events Hok) as [Hkeys Hnd].
  exists out. split; [done|]. split.
  - intros g1 g2 e1 e2 A B Hg1 Hg2 He1 He2 Hts HA HB HactA HactB HiA HiB Hbefore.
    rewrite <- Hkeys in Hbefore.
    destruct (activeProjects_order _ (timestamp (de_event e1)) A B
                Hbefore HiA HiB HactA HactB) as (i & j & Hij & Hi & Hj).
    assert (NoDup (active events (timestamp (de_event e1)))) as Hnd'.
    { apply NoDup_filter. by apply NoDup_keys. }
    destruct (Hoff g1 e1 Hg1 He1) as [Ht1 Ho1].
    destruct (Hoff g2 e2 Hg2 He2) as [Ht2 Ho2].
    rewrite <- Ht1, HA in Ho1. rewrite <- Ht2, <- Hts, HB in Ho2.
    simpl in Ho1, Ho2.
    rewrite (indexOf_from_lookup _ _ i) in Ho1 by done.
    rewrite (indexOf_from_lookup _ _ j) in Ho2 by done.
    exists i, j, (Z.of_nat i * width)%Z, (Z.of_nat j * width)%Z.
    split_and!; try done.
    all: try (rewrite Ho1; f_equal; lia).
    all: try (rewrite Ho2; f_equal; lia).
    unfold lane_width. nia.
  - intros g e Hg He Hinactive. destruct (Hoff g e Hg He) as [Ht ->]. f_equal.
    rewrite <- Ht.
    destruct (project e) as [[A|]|]; simpl; [|lia..].
    rewrite indexOf_from_absent by (by apply Hinactive). lia.
Qed.

End Datetimes.

(** a computable test for plain projects *)
Lemma plain_projects_check (l : list Event) :
  forallb (λ e, match tags e with
                | Some ts => match head ts with
                             | Some p => bool_decide (p ∉ prototype_members)
                             | None => true
                             end
                | None => false
                end) l = true →
  Forall plain_project l.
Proof.
  intros Hall. apply Forall_forall. intros e He%list_elem_of_In.
  apply (proj1 (forallb_forall _ _) Hall) in He.
  unfold plain_project, first_tag. destruct (tags e) as [ts|]; [|done].
  split; [by eexists|]. simpl. intros p Hp. rewrite Hp in He.
  by apply bool_decide_eq_true in He.
Qed.

(** C4, the counterexample: the group of the later day comes first in the
    output, as its event comes first in the collection. *)
Lemma selectDatetimes_not_chronological :
  ∃ out,
    selectDatetimes Demo.dateMin Demo.dateMax Demo.eventDotR Demo.dateOf
      Demo.all_on (Demo.unfiltered Demo.later_first) = Ok out ∧
    dt_timestamp <$> out = ["2020-02-01"; "2020-01-01"] ∧
    ¬ chronological Demo.dateOf (dt_timestamp <$> out).
Proof.
  eexists. split; [vm_compute; reflexivity|]. split; [reflexivity|].
  intros Hc. specialize (Hc 0%nat "2020-02-01" "2020-01-01" eq_refl eq_refl).
  vm_compute in Hc. by apply Hc.
Qed.

(** C4 as amended, a witness. *)
Lemma selectDatetimes_first_occurrence_order_witness :
  ∃ out,
    selectDatetimes Demo.dateMin Demo.dateMax Demo.eventDotR Demo.dateOf
      Demo.all_on (Demo.unfiltered Demo.later_first) = Ok out ∧
    dt_timestamp <$> out
    = distinct (timestamp <$> JsArray.elements (Demo.unfiltered Demo.later_first)).
Proof.
  apply (selectDatetimes_first_occurrence_order Demo.dateMin Demo.dateMax
           Demo.eventDotR Demo.dateOf Demo.all_on).
  - right. by apply plain_projects_check.
  - repeat constructor.
Defined.

(** C2, the counterexample: the project [2] is discovered before the
    project [1], both are active, and yet [2] gets the greater offset,
    because the keys [1] and [2] are enumerated in numeric order. *)
Lemma selectDatetimes_numeric_projects_reordered :
  ∃ g e1 e2,
    selectDatetimes Demo.dateMin Demo.dateMax Demo.eventDotR Demo.dateOf
      Demo.all_on (Demo.unfiltered Demo.numbered_projects) = Ok [g] ∧
    dt_events g = [e1; e2] ∧
    project e1 = Some (Some "2") ∧ project e2 = Some (Some "1") ∧
    timestamp (de_event e1) = timestamp (de_event e2) ∧
    active_at Demo.dateMin Demo.dateMax Demo.all_on
      (Demo.unfiltered Demo.numbered_projects) (timestamp (de_event e1)) = ["1"; "2"] ∧
    before (discovered Demo.all_on (Demo.unfiltered Demo.numbered_projects)) "2" "1" ∧
    projectOffset e1 = Some 21%Z ∧ projectOffset e2 = Some 0%Z.
Proof.
  eexists _, _, _. split; [vm_compute; reflexivity|]. simpl.
  split_and!; try reflexivity.
  exists 0%nat, 1%nat. split; [lia|]. split; reflexivity.
Qed.

(** C2 as amended, a witness: the projects [alpha] and [beta]. *)
Lemma selectDatetimes_lane_offsets_witness :
  ∃ out,
    selectDatetimes Demo.dateMin Demo.dateMax Demo.eventDotR Demo.dateOf
      Demo.all_on (Demo.unfiltered Demo.two_projects) = Ok out ∧
    (∀ g1 g2 e1 e2 A B,
       g1 ∈ out → g2 ∈ out → e1 ∈ dt_events g1 → e2 ∈ dt_events g2 →
       timestamp (de_event e1) = timestamp (de_event e2) →
       project e1 = Some (Some A) → project e2 = Some (Some B) →
       A ∈ Demo.active_projects (timestamp (de_event e1)) →
       B ∈ Demo.active_projects (timestamp (de_event e1)) →
       array_index A = None → array_index B = None →
       before (discovered Demo.all_on (Demo.unfiltered Demo.two_projects)) A B →
       ∃ (i j : nat) (o1 o2 : Z),
         (i < j)%nat ∧
         Demo.active_projects (timestamp (de_event e1)) !! i = Some A ∧
         Demo.active_projects (timestamp (de_event e1)) !! j = Some B ∧
         projectOffset e1 = Some o1 ∧ projectOffset e2 = Some o2 ∧
         o1 = (Z.of_nat i * lane_width Demo.eventDotR)%Z ∧
         o2 = (Z.of_nat j * lane_width Demo.eventDotR)%Z ∧
         (o1 < o2)%Z) ∧
    (∀ g e, g ∈ out → e ∈ dt_events g →
       (∀ A, project e = Some (Some A) →
             A ∉ Demo.active_projects (timestamp (de_event e))) →
       projectOffset e = Some (- lane_width Demo.eventDotR)%Z).
Proof.
  apply (selectDatetimes_lane_offsets Demo.dateMin Demo.dateMax
           Demo.eventDotR Demo.dateOf Demo.all_on).
  - vm_compute. discriminate.
  - right. by apply plain_projects_check.
Defined.

(** the lanes of the two projects of [Demo.two_projects], and the lane of
    events without project when projects are off *)
Example two_projects_offsets :
  (λ g, projectOffset <$> dt_events g) <$>
    default [] (match selectDatetimes Demo.dateMin Demo.dateMax Demo.eventDotR
              Demo.dateOf Demo.all_on (Demo.unfiltered Demo.two_projects)
            with Ok out => Some out | Throw _ => None end)
  = [[Some 0%Z; Some 21%Z]].
Proof. reflexivity. Qed.

Example projects_off_offsets :
  (λ g, projectOffset <$> dt_events g) <$>
    default [] (match selectDatetimes Demo.dateMin Demo.dateMax Demo.eventDotR
              Demo.dateOf Demo.all_off (Demo.unfiltered Demo.two_projects)
            with Ok out => Some out | Throw _ => None end)
  = [[Some (-21)%Z; Some (-21)%Z]].
Proof. reflexivity. Qed.

(** C7: an event without [tags] passes the filter when no tag is active,
    and [selectDatetimes] then throws on it; [selectNarratives] throws on an
    event without [narratives]. *)
Theorem selectors_throw_on_absent_fields :
  JsArray.elements (Demo.unfiltered Demo.untagged) = Demo.untagged ∧
  selectDatetimes Demo.dateMin Demo.dateMax Demo.eventDotR Demo.dateOf
    Demo.all_on (Demo.unfiltered Demo.untagged) = Throw TypeError ∧
  selectNarratives Demo.insetSourceFrom Demo.compareTimestamp
    [Demo.without_narratives] Demo.narrative_meta [] = Throw TypeError.
Proof. split_and!; reflexivity. Qed.

(** * Categories with located events *)

Lemma filter_ext_elem {A} (f g : A → bool) (l : list A) :
  (∀ x, x ∈ l → f x = g x) → filter (λ x, f x) l = filter (λ x, g x) l.
Proof.
  induction l as [|x l IH]; intros Hfg; [done|].
  rewrite !filter_cons, (Hfg x) by left. rewrite IH; [done|].
  intros y Hy. apply Hfg. by right.
Qed.

Section Categories.
Context (categories : list Category).

Lemma hasLocated_at_set hl cat k :
  hasLocated_at (set hl cat true) k
  = bool_decide (k = cat) || hasLocated_at hl k.
Proof.
  unfold hasLocated_at, read. rewrite get_set. case_decide.
  - by rewrite bool_decide_eq_true_2.
  - by rewrite bool_decide_eq_false_2.
Qed.

(** [hasLocated[k]] is truthy for a recorded key and for an inherited
    member only *)
Lemma hasLocated_at_keys hl k :
  hasLocated_at hl k = true → k ∈ hl.*1 ∨ k ∈ prototype_members.
Proof.
  unfold hasLocated_at, read. destruct (get hl k) eqn:E.
  - intros _. left.
    destruct (decide (k ∈ hl.*1)) as [|Hn]; [done|]. apply get_None in Hn. congruence.
  - case_decide; [by right|done].
Qed.

Lemma hasLocated_at_nil k :
  hasLocated_at [] k = bool_decide (k ∈ prototype_members).
Proof. unfold hasLocated_at, read. simpl. by case_bool_decide; case_decide. Qed.

Lemma scan_inv_set hl cat :
  cat ∈ cat_category <$> categories →
  scan_inv categories hl → scan_inv categories (set hl cat true).
Proof.
  intros Hcat (Hnd & Hsub & Htrue). split_and!.
  - by apply NoDup_keys_set.
  - intros k. rewrite keys_set. case_decide; [apply Hsub|].
    intros [?|Hk]%elem_of_app; [by apply Hsub|].
    by apply list_elem_of_singleton in Hk as ->.
  - intros k Hk. rewrite hasLocated_at_set.
    destruct (decide (k = cat)) as [->|Hne]; [by rewrite bool_decide_eq_true_2|].
    rewrite bool_decide_eq_false_2 by done. simpl. apply Htrue.
    rewrite keys_set in Hk. case_decide; [done|].
    apply elem_of_app in Hk as [?|Hk]; [done|].
    by apply list_elem_of_singleton in Hk.
Qed.

(** once as many keys are recorded as there are categories, every category
    is recorded *)
Lemma scan_inv_full hl c :
  scan_inv categories hl →
  length (keys hl) = length categories →
  c ∈ cat_category <$> categories → hasLocated_at hl c = true.
Proof.
  intros (Hnd & Hsub & Htrue) Hlen Hc. apply Htrue.
  assert (hl.*1 ≡ₚ cat_category <$> categories) as ->; [|done].
  apply submseteq_length_Permutation.
  - by apply NoDup_submseteq.
  - rewrite length_fmap, <- Hlen. unfold keys.
    by rewrite !length_fmap, entries_Permutation.
Qed.

Lemma scan_spec events hl c :
  (∀ e, e ∈ events → located e = true → category e ∈ cat_category <$> categories) →
  scan_inv categories hl →
  c ∈ cat_category <$> categories →
  hasLocated_at (scan (length categories) hl events) c
  = hasLocated_at hl c || has_located events c.
Proof.
  revert hl. induction events as [|e events IH]; intros hl Hint Hinv Hc.
  - simpl. by rewrite orb_false_r.
  - simpl. destruct (length (keys hl) =? length categories)%nat eqn:Hlen.
    { apply Nat.eqb_eq in Hlen. by rewrite (scan_inv_full hl c). }
    assert (∀ e', e' ∈ events → located e' = true →
                  category e' ∈ cat_category <$> categories) as Hint'.
    { intros e' He'. apply Hint. by right. }
    fold (located e).
    destruct (hasLocated_at hl (category e)) eqn:Hseen.
    { rewrite IH by done. destruct (decide (category e = c)) as [<-|Hne].
      - by rewrite Hseen.
      - by rewrite (bool_decide_eq_false_2 _ Hne). }
    destruct (located e) eqn:Hloc.
    + rewrite IH; [|done| |done].
      * rewrite hasLocated_at_set, andb_true_r.
        rewrite (bool_decide_ext (c = category e) (category e = c)) by done.
        by destruct (bool_decide _), (hasLocated_at hl c).
      * apply scan_inv_set; [|done]. apply Hint; [left|done].
    + rewrite IH by done. by rewrite andb_false_r.
Qed.

Lemma has_located_Permutation events events' c :
  events ≡ₚ events' → has_located events c = has_located events' c.
Proof.
  intros Hp. unfold has_located. apply eq_true_iff_eq.
  rewrite !existsb_exists. by setoid_rewrite <- list_elem_of_In; setoid_rewrite Hp.
Qed.

(** When every located event belongs to a category of the collection, the
    result does not depend on the order of the scan: it is the categories
    that have a located event, and those named like a member of
    [Object.prototype], in the order of the collection. *)
Lemma selectCategoriesWithTimeline_referential (shuffle : list Event → list Event) events :
  (∀ l, shuffle l ≡ₚ l) →
  (∀ e, e ∈ events → located e = true → category e ∈ cat_category <$> categories) →
  selectCategoriesWithTimeline shuffle categories events
  = filter (λ cat, bool_decide (cat_category cat ∈ prototype_members)
                   || has_located events (cat_category cat)) categories.
Proof.
  intros Hshuffle Hint. unfold selectCategoriesWithTimeline.
  destruct (length categories =? 0)%nat eqn:Hlen.
  { apply Nat.eqb_eq in Hlen. by destruct categories. }
  apply (filter_ext_elem (λ cat, hasLocated_at _ (cat_category cat))
           (λ cat, bool_decide (cat_category cat ∈ prototype_members)
                   || has_located events (cat_category cat))).
  intros cat Hcat.
  assert (cat_category cat ∈ cat_category <$> categories) as Hc.
  { apply list_elem_of_fmap. by exists cat. }
  rewrite scan_spec; [| |by split_and!; [constructor|intros ? ?%elem_of_nil..]|done].
  - by rewrite hasLocated_at_nil, (has_located_Permutation _ events).
  - intros e He. apply Hint. by rewrite <- (Hshuffle events).
Qed.

End Categories.

(** C5: with an event of a category outside the collection, the result of
    [selectCategoriesWithTimeline] depends on the order of the scan: scanned
    in input order the located category [c1] is dropped, scanned in reverse
    order it is kept. *)
Theorem selectCategoriesWithTimeline_depends_on_scan_order :
  selectCategoriesWithTimeline (λ events, events)
    Demo.one_category Demo.foreign_first = [] ∧
  selectCategoriesWithTimeline reverse
    Demo.one_category Demo.foreign_first = Demo.one_category.
Proof. split; reflexivity. Qed.

(** * Further properties of the selectors *)

(** ** The event filter *)

(** the entries of a sparse array whose entries carry their index as id are
    met in ascending order of id *)
Lemma elements_ascending_from (a : sparse Event) n i j e1 e2 :
  (∀ i e, JsArray.get a i = Some e → id e = (n + i)%nat) →
  JsArray.elements a !! i = Some e1 → JsArray.elements a !! j = Some e2 →
  (i < j)%nat → (n ≤ id e1)%nat ∧ (id e1 < id e2)%nat.
Proof.
  revert n i j. induction a as [|x a IH]; intros n i j Hid Hi Hj Hij; [done|].
  assert (∀ i e, JsArray.get a i = Some e → id e = (S n + i)%nat) as Hid'.
  { intros k e Hk. rewrite (Hid (S k) e Hk). lia. }
  destruct x as [e0|].
  - unfold JsArray.elements in *. simpl in Hi, Hj.
    destruct j as [|j]; [lia|]. simpl in Hj.
    destruct i as [|i]; simpl in Hi.
    + injection Hi as <-. rewrite (Hid 0%nat e0 eq_refl).
      assert (S n ≤ id e2)%nat; [|lia].
      destruct (NoDup_elements_from a (S n) Hid') as [_ Hge].
      apply Hge. apply list_elem_of_lookup. eauto.
    + destruct (IH (S n) i j Hid' Hi Hj) as [? ?]; lia.
  - unfold JsArray.elements in *. simpl in Hi, Hj.
    destruct (IH (S n) i j Hid' Hi Hj) as [? ?]; lia.
Qed.

Section SelectEventsMore.
Context {TimeRange : Type} (isTimeRangedIn : Event → TimeRange → bool).
Context (activeTags activeCategories : list string) (timeRange : TimeRange).

Local Abbreviation out events :=
  (selectEvents isTimeRangedIn events activeTags activeCategories timeRange).
Local Abbreviation sat := (satisfies isTimeRangedIn activeTags activeCategories timeRange).

(** X1: whatever the order of the input, the filtered events are visited by
    [forEach] in strictly ascending order of id. *)
Theorem selectEvents_visited_by_ascending_id events (i j : nat) e1 e2 :
  JsArray.elements (out events) !! i = Some e1 →
  JsArray.elements (out events) !! j = Some e2 →
  (i < j)%nat → (id e1 < id e2)%nat.
Proof.
  intros Hi Hj Hij.
  eapply (elements_ascending_from (out events) 0 i j); [|done..].
  intros k e Hk. simpl. by eapply selectEvents_keyed_by_id.
Qed.

(** an entry of the output satisfies the three criteria *)
Lemma selectEvents_entry_satisfies events i E :
  JsArray.get (out events) i = Some E → sat E.
Proof.
  rewrite get_selectEvents. intros Hl.
  apply (last_filter_Some
           (λ e, isSelected isTimeRangedIn activeTags activeCategories timeRange e
                 && (id e =? i)%nat)) in Hl as (l1 & l2 & _ & HP & _).
  apply andb_true_iff in HP as [HP _]. by apply isSelected_satisfies.
Qed.

(** X2: as soon as a tag is active, an event without the [tags] field or
    with an empty [tags] array is not in the output. *)
Theorem selectEvents_hides_untagged events E :
  activeTags ≠ [] → tags E = None ∨ tags E = Some [] →
  ¬ appears E (out events).
Proof.
  intros Hact Htags [i Hi].
  destruct (selectEvents_entry_satisfies events i E Hi) as (_ & [?|Htag] & _); [done|].
  destruct Htag as (tag & ts & Hts & Hin & _).
  destruct Htags as [Hn|Hn]; rewrite Hn in Hts; [done|].
  injection Hts as <-. by apply elem_of_nil in Hin.
Qed.

End SelectEventsMore.

Section ArrayShape.
Context {A : Type}.
Implicit Types (a b : sparse A).

Lemma array_set_nonempty a i (v : A) : JsArray.set a i v ≠ [].
Proof. by destruct a, i. Qed.

Lemma last_cons_hole (x : option A) a : last (x :: a) ≠ Some None → last a ≠ Some None.
Proof. rewrite last_cons. by intros H E; rewrite E in H. Qed.

(** an array built by assignments does not end with a hole *)
Lemma array_set_last a i (v : A) :
  last a ≠ Some None → last (JsArray.set a i v) ≠ Some None.
Proof.
  revert a. induction i as [|i IH]; intros a Ha.
  - destruct a as [|x a]; simpl; [done|].
    apply last_cons_hole in Ha. rewrite last_cons. by destruct (last a).
  - assert (∀ x a', last a' ≠ Some None →
                    last (x :: JsArray.set a' i v) ≠ Some None) as Hstep.
    { intros x a' Ha'. rewrite last_cons.
      specialize (IH a' Ha'). pose proof (array_set_nonempty a' i v) as Hne.
      destruct (last (JsArray.set a' i v)) as [y|] eqn:E; [done|].
      by apply last_None in E. }
    destruct a as [|x a]; simpl.
    + by apply Hstep.
    + apply Hstep. by eapply last_cons_hole.
Qed.

Lemma array_all_holes a :
  (∀ i, JsArray.get a i = None) → a ≠ [] → last a = Some None.
Proof.
  induction a as [|x a IH]; intros Hget Hne; [done|].
  pose proof (Hget 0%nat) as H0. unfold JsArray.get in H0. simpl in H0. subst x.
  rewrite last_cons. destruct a as [|y a]; [done|].
  rewrite IH; [done| |done]. intros i. apply (Hget (S i)).
Qed.

(** two arrays without a trailing hole and with the same entries are equal *)
Lemma array_ext a b :
  last a ≠ Some None → last b ≠ Some None →
  (∀ i, JsArray.get a i = JsArray.get b i) → a = b.
Proof.
  revert b. induction a as [|x a IH]; intros b Ha Hb Hget.
  - destruct b as [|y b]; [done|]. exfalso. apply Hb.
    apply array_all_holes; [|done]. intros i. by rewrite <- Hget, array_get_nil.
  - destruct b as [|y b].
    + exfalso. apply Ha. apply array_all_holes; [|done].
      intros i. by rewrite Hget, array_get_nil.
    + pose proof (Hget 0%nat) as H0. unfold JsArray.get in H0. simpl in H0. subst y.
      f_equal. apply IH.
      * by eapply last_cons_hole.
      * by eapply last_cons_hole.
      * intros i. apply (Hget (S i)).
Qed.

End ArrayShape.

Section SelectEventsAgain.
Context {TimeRange : Type} (isTimeRangedIn : Event → TimeRange → bool).
Context (activeTags activeCategories : list string) (timeRange : TimeRange).

Local Abbreviation out events :=
  (selectEvents isTimeRangedIn events activeTags activeCategories timeRange).
Local Abbreviation sel := (isSelected isTimeRangedIn activeTags activeCategories timeRange).

Lemma selectEvents_last events : last (out events) ≠ Some None.
Proof.
  unfold selectEvents.
  assert (∀ acc : sparse Event, last acc ≠ Some None →
            last (fold_left (λ acc event, if sel event
                                          then JsArray.set acc (id event) event
                                          else acc) events acc) ≠ Some None) as Hgen.
  { induction events as [|e events IH]; intros acc Hacc; [done|]. simpl.
    apply IH. destruct (sel e); [|done]. by apply array_set_last. }
  by apply Hgen.
Qed.

Lemma selectEvents_entry_selected events i E :
  JsArray.get (out events) i = Some E → sel E = true ∧ id E = i.
Proof.
  rewrite get_selectEvents. intros Hl.
  apply (last_filter_Some (λ e, sel e && (id e =? i)%nat)) in Hl
    as (l1 & l2 & _ & HP & _).
  apply andb_true_iff in HP as [HP Hid]. by apply Nat.eqb_eq in Hid.
Qed.

(** X15: filtering the filtered events again, with the same filters, changes
    nothing. *)
Theorem selectEvents_idempotent events :
  out (JsArray.elements (out events)) = out events.
Proof.
  apply array_ext; [apply selectEvents_last..|]. intros k.
  rewrite get_selectEvents. unfold matching.
  set (l := JsArray.elements (out events)).
  assert (∀ e, e ∈ l → sel e = true ∧ JsArray.get (out events) (id e) = Some e) as Hl.
  { intros e [i Hi]%elem_of_elements.
    destruct (selectEvents_entry_selected _ _ _ Hi) as [? <-]. done. }
  destruct (JsArray.get (out events) k) as [e|] eqn:Hk.
  - apply (last_filter_Some (λ e, sel e && (id e =? k)%nat)).
    assert (e ∈ l) as Hin by (apply elem_of_elements; eauto).
    destruct (selectEvents_entry_selected _ _ _ Hk) as [Hsel Hid].
    destruct (list_elem_of_split _ _ Hin) as (l1 & l2 & Hsplit).
    exists l1, l2. split_and!; [done| |].
    + rewrite Hsel. simpl. by apply Nat.eqb_eq.
    + intros y Hy. apply not_true_is_false. intros [_ Hy']%andb_true_iff.
      apply Nat.eqb_eq in Hy'.
      destruct (Hl y) as [_ Hgy]; [rewrite Hsplit; apply elem_of_app; right; by right|].
      rewrite Hy', Hk in Hgy. injection Hgy as ->.
      pose proof (NoDup_selectEvents isTimeRangedIn activeTags activeCategories
                    timeRange events) as Hnd.
      fold l in Hnd. rewrite Hsplit in Hnd.
      apply NoDup_app in Hnd as (_ & _ & Hnd). apply NoDup_cons in Hnd as [Hnd _].
      done.
  - destruct (last _) as [y|] eqn:Hlast; [|done]. exfalso.
    apply (last_filter_Some (λ e, sel e && (id e =? k)%nat)) in Hlast
      as (l1 & l2 & Hsplit & HP & _).
    apply andb_true_iff in HP as [_ Hy']. apply Nat.eqb_eq in Hy'.
    destruct (Hl y) as [_ Hgy]; [rewrite Hsplit; apply elem_of_app; right; left|].
    by rewrite Hy', Hk in Hgy.
Qed.

End SelectEventsAgain.

(** ** Location groups, by content *)

Lemma filter_snoc {A} (P : A → Prop) `{!∀ x, Decision (P x)} (l : list A) (x : A) :
  filter P (l ++ [x]) = filter P l ++ (if decide (P x) then [x] else []).
Proof. by rewrite filter_app, filter_cons, filter_nil. Qed.

Lemma filter_key_nil {A} (f : A → string) (l : list A) k :
  filter (λ x, f x = k) l = [] ↔ k ∉ f <$> l.
Proof.
  induction l as [|x l IH]; [by split; [intros _; apply not_elem_of_nil|]|].
  rewrite filter_cons, fmap_cons, not_elem_of_cons. case_decide; subst.
  - split; [done|]. by intros [? _].
  - rewrite IH. split; [|by intros [_ ?]]. intros ?. split; [congruence|done].
Qed.

Lemma NoDup_distinct l : NoDup (distinct l).
Proof.
  induction l as [|x l IH] using rev_ind; [constructor|].
  rewrite distinct_snoc. case_decide; [done|].
  apply NoDup_app. split_and!; [done| |apply NoDup_singleton].
  intros y Hy Hy'. by apply list_elem_of_singleton in Hy' as ->.
Qed.

Section LocationsMore.

Lemma locate_located_table seen acc e :
  to_key (location e) ∉ prototype_members →
  located_table seen acc →
  ∃ acc', locate acc e = Ok acc' ∧ located_table (seen ++ [e]) acc'.
Proof.
  intros Hplain [Hkeys Hget]. unfold locate. rewrite read_plain by done.
  pose proof (Hget (to_key (location e))) as Hk.
  destruct (filter (λ e0, to_key (location e0) = to_key (location e)) seen)
    as [|e0 rest] eqn:Hf; rewrite Hk; simpl; (eexists; split; [done|]); split.
  1,3: rewrite fmap_app; simpl; rewrite distinct_snoc, <- Hkeys; apply keys_set.
  all: intros k; rewrite filter_snoc, get_set.
  all: destruct (decide (k = to_key (location e))) as [->|Hne].
  1,3: by rewrite Hf, decide_True by done.
  all: rewrite decide_False by done; rewrite app_nil_r; apply Hget.
Qed.

Lemma forEach_locate_located_table l seen acc :
  Forall (λ e, to_key (location e) ∉ prototype_members) l →
  located_table seen acc →
  ∃ acc', forEachM locate l acc = Ok acc' ∧ located_table (seen ++ l) acc'.
Proof.
  intros Hall. revert seen acc.
  induction Hall as [|e l He _ IH]; intros seen acc Hinv; simpl.
  - exists acc. by rewrite app_nil_r.
  - destruct (locate_located_table seen acc e He Hinv) as (acc1 & -> & Hinv1). simpl.
    rewrite (cons_middle e), app_assoc. by apply IH.
Qed.

Lemma selectLocations_located_table (events : sparse Event) :
  Forall (λ e, to_key (location e) ∉ prototype_members) (JsArray.elements events) →
  ∃ acc, selectLocations events = Ok (values acc) ∧
         located_table (JsArray.elements events) acc.
Proof.
  intros Hall. unfold selectLocations.
  destruct (forEach_locate_located_table _ [] [] Hall) as (acc & -> & Hinv); [done|].
  by exists acc.
Qed.

(** X3: when no location names a member of [Object.prototype],
    [selectLocations] returns, and the events of a location group are the
    filtered events of its location, in the order in which they are visited;
    its label, latitude and longitude are those of the first of them. *)
Theorem selectLocations_group_contents (events : sparse Event) :
  Forall (λ e, to_key (location e) ∉ prototype_members) (JsArray.elements events) →
  ∃ out, selectLocations events = Ok out ∧
    ∀ g, g ∈ out →
      ∃ e0 rest,
        filter (λ e, to_key (location e) = to_key (lg_label g)) (JsArray.elements events)
        = e0 :: rest ∧
        lg_events g = e0 :: rest ∧
        lg_label g = location e0 ∧
        lg_latitude g = latitude e0 ∧ lg_longitude g = longitude e0.
Proof.
  intros Hplain.
  destruct (selectLocations_located_table events Hplain) as (acc & -> & Hkeys & Hget).
  eexists. split; [done|]. unfold values.
  intros g ([k g'] & -> & Hin)%list_elem_of_fmap. simpl.
  rewrite entries_Permutation in Hin. apply elem_of_get in Hin.
  2: { rewrite Hkeys. apply NoDup_distinct. }
  rewrite Hget in Hin.
  destruct (filter (λ e, to_key (location e) = k) (JsArray.elements events))
    as [|e0 rest] eqn:Hf; [done|].
  injection Hin as <-. exists e0, rest. simpl. split_and!; try done.
  assert (e0 ∈ filter (λ e, to_key (location e) = k) (JsArray.elements events))
    as [-> _]%list_elem_of_filter by (rewrite Hf; left).
  done.
Qed.

(** X4: when no location key is an array-index string or the name of a
    member of [Object.prototype], the groups come in the order in which
    their locations are first met among the filtered events. *)
Theorem selectLocations_first_occurrence_order (events : sparse Event) :
  Forall (λ e, to_key (location e) ∉ prototype_members) (JsArray.elements events) →
  Forall (λ e, array_index (to_key (location e)) = None) (JsArray.elements events) →
  ∃ out, selectLocations events = Ok out ∧
    (λ g, to_key (lg_label g)) <$> out
    = distinct ((λ e, to_key (location e)) <$> JsArray.elements events).
Proof.
  intros Hplain Hkeys.
  destruct (selectLocations_located_table events Hplain) as (acc & -> & Hk & Hget).
  eexists. split; [done|]. unfold values.
  assert (NoDup acc.*1) as Hnd by (rewrite Hk; apply NoDup_distinct).
  rewrite entries_string_keys.
  - rewrite <- Hk, <- list_fmap_compose. apply list_fmap_ext.
    intros i [k g] Hi. simpl.
    assert (get acc k = Some g) as Hg.
    { apply elem_of_get; [done|]. apply list_elem_of_lookup; eauto. }
    rewrite Hget in Hg.
    destruct (filter (λ e, to_key (location e) = k) (JsArray.elements events))
      as [|e0 rest] eqn:Hf; [done|].
    injection Hg as <-. simpl.
    assert (e0 ∈ filter (λ e, to_key (location e) = k) (JsArray.elements events))
      as [-> _]%list_elem_of_filter by (rewrite Hf; left).
    done.
  - apply Forall_forall. intros [k g] Hin.
    assert (k ∈ distinct ((λ e, to_key (location e)) <$> JsArray.elements events)) as Hkin.
    { rewrite <- Hk. apply list_elem_of_fmap. by exists (k, g). }
    apply elem_of_distinct, list_elem_of_fmap in Hkin as (e & -> & He).
    by eapply Forall_forall in Hkeys.
Qed.

(** X17: [selectLocations] throws exactly when the location of some
    filtered event is the name of a member of [Object.prototype]: the member
    is truthy and has no [events] to push onto. *)
Theorem selectLocations_throws_iff (events : sparse Event) :
  selectLocations events = Throw TypeError
  ↔ ∃ e, e ∈ JsArray.elements events ∧ to_key (location e) ∈ prototype_members.
Proof.
  split.
  - intros Hthrow.
    destruct (decide (Exists (λ e, to_key (location e) ∈ prototype_members)
                        (JsArray.elements events))) as [Hex|Hno].
    + by apply Exists_exists in Hex.
    + apply not_Exists_Forall in Hno; [|apply _].
      destruct (selectLocations_Ok events) as (acc & Hok & _); [|congruence].
      eapply Forall_impl; [exact Hno|]. done.
  - intros (e & He & Hmember). unfold selectLocations.
    rewrite (forEach_locate_throws _ [] e); [done..|]. by intros k ?%elem_of_nil.
Qed.

End LocationsMore.

(** ** Datetime groups, by content *)

Lemma forEachM_throws {A S} (body : S → A → result S) (l : list A) (x : A) s :
  x ∈ l → (∀ s', body s' x = Throw TypeError) → forEachM body l s = Throw TypeError.
Proof.
  intros Hin Hx. revert s. induction l as [|y l IH]; intros s.
  - by apply elem_of_nil in Hin.
  - simpl. apply elem_of_cons in Hin as [<-|Hin]; [by rewrite Hx|].
    destruct (body s y) as [s'|[]]; simpl; [by apply IH|done].
Qed.

Lemma string_leb_refl s : String.leb s s = true.
Proof. by destruct (String.leb_total s s). Qed.

Lemma string_leb_trans a b c :
  String.leb a b = true → String.leb b c = true → String.leb a c = true.
Proof.
  unfold String.leb. revert b c.
  induction a as [|x a IH]; intros [|y b] [|z c]; simpl; try done.
  unfold Ascii.compare.
  destruct (N.compare_spec (N_of_ascii x) (N_of_ascii y)),
           (N.compare_spec (N_of_ascii y) (N_of_ascii z)),
           (N.compare_spec (N_of_ascii x) (N_of_ascii z));
    try done; try lia.
  apply IH.
Qed.

Lemma indexOf_from_elem n l x : x ∈ l → (n <= indexOf_from n l x)%Z.
Proof.
  revert n. induction l as [|y l IH]; intros n Hin; [by apply elem_of_nil in Hin|].
  simpl. case_decide; [lia|]. apply elem_of_cons in Hin as [?|Hin]; [done|].
  specialize (IH (n + 1)%Z Hin). lia.
Qed.

Section DatetimesMore.
Context (dateMin dateMax : string → string → string).
Context (eventDotR : Z) (dateOf : string → Z) (features : Features).

Local Abbreviation tables := (grouped_tables dateMin dateMax features).
Local Abbreviation coll := (collect dateMin dateMax features).
Local Abbreviation datetimes events :=
  (selectDatetimes dateMin dateMax eventDotR dateOf features events).
Local Abbreviation ok := (plain_projects features).
Local Abbreviation width := (lane_width eventDotR).

Lemma track_project_annotated projects event :
  (ASSOCIATIVE_EVENTS_BY_TAG features = false ∨ plain_project event) →
  (∀ k, k ∈ projects.*1 → k ∉ prototype_members) →
  ∃ projects',
    track_project dateMin dateMax features projects event
    = Ok (annotated features event, projects') ∧
    ∀ p, get projects' p =
         if ASSOCIATIVE_EVENTS_BY_TAG features then
           if decide (first_tag event = Some p) then
             match get projects p with
             | Some pj => Some {| pj_start := dateMin (pj_start pj) (timestamp event);
                                  pj_end := dateMax (pj_end pj) (timestamp event) |}
             | None => Some {| pj_start := timestamp event; pj_end := timestamp event |}
             end
           else get projects p
         else get projects p.
Proof.
  intros Hok Hplain. unfold track_project, annotated, plain_project, first_tag in *.
  destruct (ASSOCIATIVE_EVENTS_BY_TAG features); [|by eexists].
  destruct Hok as [?|[[ts Hts] Hp]]; [done|]. rewrite Hts in Hp |- *. simpl in *.
  destruct (head ts) as [p0|] eqn:Hhead.
  - rewrite hasOwnProperty_inherited.
    2: { intros Hk. apply (Hplain _ Hk). by apply (bool_decide_unpack _). }
    simpl. eexists. split; [done|]. intros p.
    destruct (get projects p0) as [pj|] eqn:Hp0.
    + rewrite bool_decide_eq_true_2 by eauto. unfold update. rewrite Hp0, get_set.
      destruct (decide (p = p0)) as [->|Hne].
      * rewrite decide_True by done. by rewrite Hp0.
      * rewrite decide_False; [done|congruence].
    + rewrite bool_decide_eq_false_2 by (by intros [? ?]).
      rewrite assign_plain by (by apply Hp). rewrite get_set.
      destruct (decide (p = p0)) as [->|Hne].
      * rewrite decide_True by done. by rewrite Hp0.
      * rewrite decide_False; [done|congruence].
  - eexists. split; [done|]. intros p. by rewrite decide_False.
Qed.

Lemma group_datetime_get datetimes (ev : DatetimeEvent) k :
  get (group_datetime datetimes ev) k
  = if decide (k = timestamp (de_event ev)) then
      Some match get datetimes k with
           | Some g => {| dt_timestamp := dt_timestamp g; dt_date := dt_date g;
                          dt_time := dt_time g; dt_events := dt_events g ++ [ev] |}
           | None => {| dt_timestamp := k; dt_date := date (de_event ev);
                        dt_time := time (de_event ev); dt_events := [ev] |}
           end
    else get datetimes k.
Proof.
  unfold group_datetime.
  destruct (get datetimes (timestamp (de_event ev))) eqn:E; rewrite get_set.
  - destruct (decide (k = timestamp (de_event ev))) as [->|]; [by rewrite E|done].
  - destruct (decide (k = timestamp (de_event ev))) as [->|]; [by rewrite E|done].
Qed.

Lemma collect_tables seen st event :
  (ASSOCIATIVE_EVENTS_BY_TAG features = false ∨ plain_project event) →
  (∀ k, k ∈ st.1.*1 → k ∉ prototype_members) →
  tables seen st →
  ∃ st', coll st event = Ok st' ∧ tables (seen ++ [event]) st' ∧
         ∀ k, k ∈ st'.1.*1 → k ∉ prototype_members.
Proof.
  intros Hok Hplain [HP HD]. unfold collect.
  destruct (track_project_annotated st.1 event Hok Hplain) as (projects' & -> & HP').
  simpl. eexists. split; [done|]. split; [split; simpl|simpl].
  - intros p. rewrite HP', filter_snoc.
    destruct (ASSOCIATIVE_EVENTS_BY_TAG features) eqn:Hflag; [|by rewrite HP].
    destruct (decide (first_tag event = Some p)) as [Hp|Hp].
    + rewrite HP, fmap_app. simpl.
      destruct (timestamp <$> filter _ seen) as [|t0 ts]; [done|]. simpl.
      by rewrite !fold_left_app.
    + by rewrite HP, app_nil_r.
  - intros k. rewrite group_datetime_get, filter_snoc. simpl.
    destruct (decide (k = timestamp event)) as [->|Hne].
    + rewrite decide_True by done. rewrite HD.
      destruct (filter _ seen) as [|e0 rest]; [done|]. simpl.
      by rewrite fmap_app.
    + rewrite decide_False by done. rewrite app_nil_r. apply HD.
  - intros k Hk.
    destruct (decide (k ∈ st.1.*1)) as [|Hnew]; [by apply Hplain|].
    apply get_None in Hnew.
    assert (get projects' k ≠ None) as Hget by (by rewrite get_None; intros []).
    rewrite HP' in Hget.
    destruct (ASSOCIATIVE_EVENTS_BY_TAG features); [|done].
    destruct (decide (first_tag event = Some k)) as [Hp|]; [|done].
    destruct Hok as [?|[_ Hpl]]; [done|]. by apply Hpl.
Qed.

Lemma collect_all_tables events seen st :
  (ASSOCIATIVE_EVENTS_BY_TAG features = false ∨ Forall plain_project events) →
  (∀ k, k ∈ st.1.*1 → k ∉ prototype_members) →
  tables seen st →
  ∃ st', forEachM coll events st = Ok st' ∧ tables (seen ++ events) st'.
Proof.
  revert seen st. induction events as [|e events IH]; intros seen st Hok Hplain Hinv.
  - exists st. by rewrite app_nil_r.
  - simpl. destruct (collect_tables seen st e) as (st1 & -> & Hinv1 & Hplain1);
      [|done..|].
    { destruct Hok as [?|Hall]; [by left|right]. by apply Forall_cons in Hall as [? _]. }
    simpl. rewrite (cons_middle e), app_assoc. apply IH; [|done..].
    destruct Hok as [?|Hall]; [by left|right]. by apply Forall_cons in Hall as [_ ?].
Qed.

(** the output of [selectDatetimes], group by group *)
Lemma selectDatetimes_groups (events : sparse Event) :
  ok events →
  ∃ st, tables (JsArray.elements events) st ∧
        NoDup st.2.*1 ∧
        st.2.*1 = distinct (timestamp <$> JsArray.elements events) ∧
        project_table dateMin dateMax features events = st.1 ∧
        datetimes events
        = Ok ((λ kv, with_lanes eventDotR st.1 kv.1 kv.2) <$> entries st.2).
Proof.
  intros Hok.
  destruct (selectDatetimes_Ok dateMin dateMax eventDotR dateOf features events Hok)
    as (st & Hst & [_ _ Hkeys Hnd _ _] & Htab & Hout).
  destruct (collect_all_tables (JsArray.elements events) [] ([], []) Hok)
    as (st' & Hst' & Htables).
  { by intros k ?%elem_of_nil. }
  { split; intros ?; simpl; [by destruct (ASSOCIATIVE_EVENTS_BY_TAG _)|done]. }
  rewrite Hst in Hst'. injection Hst' as <-. by exists st.
Qed.

Local Abbreviation active := (active_at dateMin dateMax features).

(** a group of the output and the events it was built from *)
Lemma selectDatetimes_group_source st (events : sparse Event) k g0 :
  tables (JsArray.elements events) st → get st.2 k = Some g0 →
  ∃ e0 rest,
    filter (λ e, timestamp e = k) (JsArray.elements events) = e0 :: rest ∧
    g0 = {| dt_timestamp := k; dt_date := date e0; dt_time := time e0;
            dt_events := annotated features <$> e0 :: rest |}.
Proof.
  intros [_ HD] Hg. rewrite HD in Hg.
  destruct (filter _ _) as [|e0 rest]; [done|]. injection Hg as <-. by exists e0, rest.
Qed.

(** X5: when every filtered event has a plain project (its tags, and no
    first tag that names a member of [Object.prototype]), or projects are
    off, [selectDatetimes] returns, and every
    group of [selectDatetimes] holds the filtered events of its timestamp, in
    the order in which they are visited, each with its project (the first
    tag, or null; no field when projects are off); the date and time of the
    group are those of the first of them; and every filtered event has the
    group of its timestamp. *)
Theorem selectDatetimes_group_contents (events : sparse Event) :
  ok events →
  ∃ out, datetimes events = Ok out ∧
    (∀ g, g ∈ out →
       ∃ e0 rest,
         filter (λ e, timestamp e = dt_timestamp g) (JsArray.elements events)
         = e0 :: rest ∧
         de_event <$> dt_events g = e0 :: rest ∧
         dt_date g = date e0 ∧ dt_time g = time e0 ∧
         ∀ de, de ∈ dt_events g →
           project de = if ASSOCIATIVE_EVENTS_BY_TAG features
                        then Some (first_tag (de_event de)) else None) ∧
    (∀ e, e ∈ JsArray.elements events →
       ∃ g, g ∈ out ∧ dt_timestamp g = timestamp e).
Proof.
  intros Hok.
  destruct (selectDatetimes_groups events Hok) as (st & Htab & Hnd & _ & _ & ->).
  eexists. split; [done|]. split.
  - intros g ([k g0] & -> & Hin)%list_elem_of_fmap. simpl.
    rewrite entries_Permutation in Hin. apply elem_of_get in Hin; [|done].
    destruct (selectDatetimes_group_source st events k g0 Htab Hin)
      as (e0 & rest & Hf & ->). cbn [with_lanes dt_events dt_timestamp dt_date dt_time].
    exists e0, rest. split_and!; try done.
    + rewrite <- !list_fmap_compose.
      etrans; [|apply (list_fmap_id (e0 :: rest))]. by apply list_fmap_ext.
    + intros de (d0 & -> & (e & -> & _)%list_elem_of_fmap)%list_elem_of_fmap. done.
  - intros e He. destruct Htab as [_ HD]. pose proof (HD (timestamp e)) as Hg.
    destruct (filter (λ e', timestamp e' = timestamp e) (JsArray.elements events))
      as [|e0 rest] eqn:Hf.
    { assert (e ∈ filter (λ e', timestamp e' = timestamp e) (JsArray.elements events))
        as Hin by (by apply list_elem_of_filter).
      rewrite Hf in Hin. by apply elem_of_nil in Hin. }
    eexists. split.
    + apply list_elem_of_fmap. eexists (timestamp e, _). split; [done|].
      rewrite entries_Permutation. by apply get_Some_elem_of.
    + done.
Qed.

(** X6: with projects on and plain projects on all filtered events, the
    interval of a project is obtained from the timestamps of the filtered
    events whose first tag it is, in the order in which they are visited:
    [dateMin], respectively [dateMax], is folded over them, starting from
    the first; a tag that is no first tag has no interval. *)
Theorem project_table_intervals (events : sparse Event) p :
  ASSOCIATIVE_EVENTS_BY_TAG features = true →
  Forall plain_project (JsArray.elements events) →
  get (project_table dateMin dateMax features events) p
  = match timestamp <$> filter (λ e, first_tag e = Some p) (JsArray.elements events) with
    | [] => None
    | t0 :: ts => Some {| pj_start := fold_left dateMin ts t0;
                          pj_end := fold_left dateMax ts t0 |}
    end.
Proof.
  intros Hflag Hall.
  destruct (collect_all_tables (JsArray.elements events) [] ([], []) (or_intror Hall))
    as (st & Hst & [HP _]).
  { by intros k ?%elem_of_nil. }
  { split; intros ?; simpl; [by destruct (ASSOCIATIVE_EVENTS_BY_TAG _)|done]. }
  unfold project_table. rewrite Hst. simpl in HP. by rewrite HP, Hflag.
Qed.

(** the body of the first loop throws on an event without [tags], and on
    an event with a project once [projects] has an own property
    [hasOwnProperty] *)
Lemma collect_throws st e :
  coll st e = Throw TypeError
  ↔ ASSOCIATIVE_EVENTS_BY_TAG features = true ∧
    (tags e = None ∨ ("hasOwnProperty" ∈ st.1.*1 ∧ is_Some (first_tag e))).
Proof.
  unfold collect, track_project, first_tag, hasOwnProperty.
  destruct (ASSOCIATIVE_EVENTS_BY_TAG features); [|by split; [|intros [? _]]].
  destruct (tags e) as [ts|]; simpl; [|by split; [split; [|left]|]].
  destruct (head ts) as [p|]; simpl.
  - destruct (get st.1 "hasOwnProperty") eqn:E; simpl.
    + split; [intros _|done]. split; [done|]. right. split; [|by eexists].
      destruct (decide ("hasOwnProperty" ∈ st.1.*1)) as [|Hn]; [done|].
      apply get_None in Hn. congruence.
    + split; [done|]. intros [_ [?|[Hin _]]]; [done|]. by apply get_None in E.
  - split; [done|]. by intros [_ [?|[_ [? ?]]]].
Qed.

Lemma collect_keys st e st' :
  coll st e = Ok st' →
  (∀ k, k ∈ st.1.*1 → k ∈ st'.1.*1) ∧
  (∀ k, k ∈ st'.1.*1 →
        k ∈ st.1.*1 ∨ (ASSOCIATIVE_EVENTS_BY_TAG features = true ∧ first_tag e = Some k)) ∧
  (ASSOCIATIVE_EVENTS_BY_TAG features = true →
   first_tag e = Some "hasOwnProperty" → "hasOwnProperty" ∈ st'.1.*1).
Proof.
  unfold collect, track_project, first_tag, hasOwnProperty.
  destruct (ASSOCIATIVE_EVENTS_BY_TAG features);
    [|intros [= <-]; simpl; split_and!; [done|by left|done]].
  destruct (tags e) as [ts|]; simpl; [|done].
  destruct (head ts) as [p|]; simpl; [|intros [= <-]; simpl; split_and!; [done|by left|done]].
  destruct (get st.1 "hasOwnProperty") eqn:E; simpl; [done|]. intros [= <-]. simpl.
  assert ((if bool_decide (is_Some (get st.1 p))
           then update (widen dateMin dateMax (timestamp e)) st.1 p
           else assign st.1 p {| pj_start := timestamp e; pj_end := timestamp e |}).*1
          = if decide (p ∈ st.1.*1 ∨ p = "__proto__") then st.1.*1 else st.1.*1 ++ [p])
    as ->.
  { destruct (get st.1 p) as [pj|] eqn:Hp.
    - rewrite bool_decide_eq_true_2 by eauto. unfold update. rewrite Hp.
      rewrite keys_set_Some by eauto. rewrite decide_True; [done|]. left.
      destruct (decide (p ∈ st.1.*1)) as [|Hn]; [done|]. apply get_None in Hn. congruence.
    - rewrite bool_decide_eq_false_2 by (by intros [? ?]). unfold assign.
      apply get_None in Hp. destruct (decide (p = "__proto__")) as [->|Hne].
      + by rewrite decide_True by (by right).
      + rewrite keys_set, decide_False by done.
        by rewrite decide_False by (by intros [?|?]). }
  split_and!.
  - intros k Hk. case_decide; [done|]. apply elem_of_app. by left.
  - intros k Hk. case_decide; [by left|].
    apply elem_of_app in Hk as [?|Hk]; [by left|].
    apply list_elem_of_singleton in Hk as ->. by right.
  - intros _ [= ->]. case_decide as Hd.
    + by destruct Hd.
    + apply elem_of_app. right. left.
Qed.

Lemma forEachM_collect_shadowed events st e :
  ASSOCIATIVE_EVENTS_BY_TAG features = true →
  "hasOwnProperty" ∈ st.1.*1 → e ∈ events → is_Some (first_tag e) →
  forEachM coll events st = Throw TypeError.
Proof.
  intros Hflag Hkey Hin He. revert st Hkey.
  induction events as [|e0 events IH]; intros st Hkey; [by apply elem_of_nil in Hin|].
  simpl. destruct (coll st e0) as [st1|[]] eqn:E; [|done]. simpl.
  apply elem_of_cons in Hin as [->|Hin].
  - assert (coll st e0 = Throw TypeError) as Hthrow; [|congruence].
    apply collect_throws. split; [done|]. by right.
  - apply IH; [done|]. by apply (proj1 (collect_keys _ _ _ E)).
Qed.

Lemma forEachM_collect_throws_after events st (i j : nat) e1 e2 :
  ASSOCIATIVE_EVENTS_BY_TAG features = true →
  (i < j)%nat → events !! i = Some e1 → events !! j = Some e2 →
  first_tag e1 = Some "hasOwnProperty" → is_Some (first_tag e2) →
  forEachM coll events st = Throw TypeError.
Proof.
  intros Hflag Hij Hi Hj H1 H2. revert st i j Hij Hi Hj.
  induction events as [|e0 events IH]; intros st i j Hij Hi Hj; [done|].
  simpl. destruct (coll st e0) as [st1|[]] eqn:E; [|done]. simpl.
  destruct j as [|j]; [lia|]. simpl in Hj. destruct i as [|i]; simpl in Hi.
  - injection Hi as ->. apply (forEachM_collect_shadowed _ _ e2); [done| |by eapply list_elem_of_lookup_2|done].
    by apply (proj2 (proj2 (collect_keys _ _ _ E))).
  - apply (IH st1 i j); [lia|done..].
Qed.

Lemma forEachM_collect_Throw events st :
  forEachM coll events st = Throw TypeError →
  ASSOCIATIVE_EVENTS_BY_TAG features = true ∧
  ((∃ e, e ∈ events ∧ tags e = None) ∨
   ("hasOwnProperty" ∈ st.1.*1 ∧ ∃ e, e ∈ events ∧ is_Some (first_tag e)) ∨
   ∃ (i j : nat) e1 e2, (i < j)%nat ∧ events !! i = Some e1 ∧ events !! j = Some e2 ∧
     first_tag e1 = Some "hasOwnProperty" ∧ is_Some (first_tag e2)).
Proof.
  revert st. induction events as [|e0 events IH]; intros st; [done|].
  simpl. destruct (coll st e0) as [st1|[]] eqn:E; simpl.
  - intros (Hflag & Hcases)%IH. split; [done|].
    destruct Hcases as [(e & He & Hno)|[(Hkey & e & He & Hp)|Hlater]].
    + left. exists e. split; [by right|done].
    + destruct (proj1 (proj2 (collect_keys _ _ _ E)) _ Hkey) as [Hold|[_ Hnew]].
      * right. left. split; [done|]. exists e. split; [by right|done].
      * right. right. apply list_elem_of_lookup in He as [j Hj].
        exists 0%nat, (S j), e0, e. split_and!; [lia|done..].
    + right. right. destruct Hlater as (i & j & e1 & e2 & Hij & Hi & Hj & H1 & H2).
      exists (S i), (S j), e1, e2. split_and!; [lia|done..].
  - intros _. apply collect_throws in E as [Hflag [Hno|[Hkey Hp]]]; (split; [done|]).
    + left. exists e0. split; [left|done].
    + right. left. split; [done|]. exists e0. split; [left|done].
Qed.

(** X7: [selectDatetimes] throws exactly when projects are on and either
    some filtered event has no [tags] field, or an event whose project is
    named [hasOwnProperty] is followed by an event with a project: the
    interval stored under that name shadows the method that the next call
    needs. *)
Theorem selectDatetimes_throws_iff (events : sparse Event) :
  datetimes events = Throw TypeError
  ↔ ASSOCIATIVE_EVENTS_BY_TAG features = true ∧
    ((∃ e, e ∈ JsArray.elements events ∧ tags e = None) ∨
     ∃ (i j : nat) e1 e2, (i < j)%nat ∧
       JsArray.elements events !! i = Some e1 ∧
       JsArray.elements events !! j = Some e2 ∧
       first_tag e1 = Some "hasOwnProperty" ∧ is_Some (first_tag e2)).
Proof.
  unfold selectDatetimes. split.
  - destruct (forEachM coll (JsArray.elements events) ([], [])) as [st|[]] eqn:E;
      [done|]. intros _.
    apply forEachM_collect_Throw in E as [Hflag [?|[[Hkey _]|?]]].
    + split; [done|]. by left.
    + by apply elem_of_nil in Hkey.
    + split; [done|]. by right.
  - intros (Hflag & [(e & He & Hno)|(i & j & e1 & e2 & Hij & Hi & Hj & H1 & H2)]).
    + rewrite (forEachM_throws _ _ e); [done|done|].
      intros st. apply collect_throws. split; [done|]. by left.
    + by rewrite (forEachM_collect_throws_after _ _ i j e1 e2).
Qed.

(** X8: with projects off, [selectDatetimes] returns, and every event of
    every group has no project and the offset -(2R+5). *)
Theorem selectDatetimes_projects_off (events : sparse Event) :
  ASSOCIATIVE_EVENTS_BY_TAG features = false →
  ∃ out, datetimes events = Ok out ∧
    ∀ g e, g ∈ out → e ∈ dt_events g →
      project e = None ∧ projectOffset e = Some (- width)%Z.
Proof.
  intros Hflag.
  destruct (selectDatetimes_groups events (or_introl Hflag))
    as (st & Htab & Hnd & _ & _ & ->).
  eexists. split; [done|].
  intros g e ([k g0] & -> & Hin)%list_elem_of_fmap. simpl.
  rewrite entries_Permutation in Hin. apply elem_of_get in Hin; [|done].
  destruct (selectDatetimes_group_source st events k g0 Htab Hin)
    as (e0 & rest & Hf & ->). cbn [with_lanes dt_events].
  intros (d0 & -> & (e' & -> & _)%list_elem_of_fmap)%list_elem_of_fmap.
  simpl. rewrite Hflag. split; [done|]. f_equal; simpl; lia.
Qed.


Section Bounds.
Hypothesis dateMin_lower :
  ∀ a b, String.leb (dateMin a b) a = true ∧ String.leb (dateMin a b) b = true.
Hypothesis dateMax_upper :
  ∀ a b, String.leb a (dateMax a b) = true ∧ String.leb b (dateMax a b) = true.

Lemma fold_dateMin_lower ts t0 t :
  t ∈ t0 :: ts → String.leb (fold_left dateMin ts t0) t = true.
Proof.
  induction ts as [|x ts IH] using rev_ind; intros Hin.
  - apply list_elem_of_singleton in Hin as ->. apply string_leb_refl.
  - rewrite fold_left_app. simpl. rewrite app_comm_cons in Hin.
    apply elem_of_app in Hin as [Hin|Hin].
    + eapply string_leb_trans; [apply (proj1 (dateMin_lower _ _))|by apply IH].
    + apply list_elem_of_singleton in Hin as ->. apply (proj2 (dateMin_lower _ _)).
Qed.

Lemma fold_dateMax_upper ts t0 t :
  t ∈ t0 :: ts → String.leb t (fold_left dateMax ts t0) = true.
Proof.
  induction ts as [|x ts IH] using rev_ind; intros Hin.
  - apply list_elem_of_singleton in Hin as ->. apply string_leb_refl.
  - rewrite fold_left_app. simpl. rewrite app_comm_cons in Hin.
    apply elem_of_app in Hin as [Hin|Hin].
    + eapply string_leb_trans; [by apply IH|apply (proj1 (dateMax_upper _ _))].
    + apply list_elem_of_singleton in Hin as ->. apply (proj2 (dateMax_upper _ _)).
Qed.

(** X9: when [dateMin] and [dateMax] return a lower and an upper bound of
    their arguments in the order of the string comparisons [>=] and [<=] of
    [checkActive], projects are on, every filtered event has a plain project
    (its tags, and no first tag that names a member of [Object.prototype])
    and the dot radius is not negative: the project of every event that has
    a first tag is active at the timestamp of the event, and the offset of
    the event is not negative. *)
Theorem selectDatetimes_tagged_event_has_lane (events : sparse Event) :
  (0 <= eventDotR)%Z →
  ASSOCIATIVE_EVENTS_BY_TAG features = true →
  Forall plain_project (JsArray.elements events) →
  ∃ out, datetimes events = Ok out ∧
    ∀ g e p, g ∈ out → e ∈ dt_events g → project e = Some (Some p) →
      p ∈ active events (timestamp (de_event e)) ∧
      ∃ o, projectOffset e = Some o ∧ (0 <= o)%Z.
Proof.
  intros HR Hflag Hall.
  destruct (selectDatetimes_groups events (or_intror Hall))
    as (st & Htab & Hnd & _ & Htable & ->).
  eexists. split; [done|].
  intros g e p ([k g0] & -> & Hin)%list_elem_of_fmap.
  rewrite entries_Permutation in Hin. apply elem_of_get in Hin; [|done].
  destruct (selectDatetimes_group_source st events k g0 Htab Hin)
    as (e0 & rest & Hf & ->). cbn [with_lanes dt_events fst snd].
  intros (d0 & -> & (e' & -> & He')%list_elem_of_fmap)%list_elem_of_fmap.
  cbn [with_offset annotated project projectOffset de_event]. rewrite Hflag.
  intros [= Hp]. rewrite <- Hf in He'.
  apply list_elem_of_filter in He' as [Hk He'].
  unfold active_at. rewrite Htable, Hk.
  assert (p ∈ activeProjects st.1 k) as Hact.
  { destruct Htab as [HP _]. pose proof (HP p) as Hget. rewrite Hflag in Hget.
    assert (k ∈ timestamp <$> filter (λ e, first_tag e = Some p) (JsArray.elements events))
      as Hts.
    { apply list_elem_of_fmap. exists e'. split; [done|]. by apply list_elem_of_filter. }
    destruct (timestamp <$> filter _ _) as [|t0 ts]; [by apply elem_of_nil in Hts|].
    apply list_elem_of_filter. split.
    - unfold checkActive. rewrite Hget. simpl.
      by rewrite fold_dateMin_lower, fold_dateMax_upper.
    - unfold keys. rewrite entries_Permutation.
      destruct (decide (p ∈ st.1.*1)) as [|Hno]; [done|].
      apply get_None in Hno. congruence. }
  split; [done|]. eexists. split; [done|]. rewrite Hp. simpl.
  pose proof (indexOf_from_elem 0 _ _ Hact). unfold lane_width. nia.
Qed.

End Bounds.

End DatetimesMore.

(** ** Narratives, by content *)

Section NarrativesMore.
Context {Source Step : Type}.
Context (insetSourceFrom : obj Source → Event → Step).
Context (compareTimestamp : Step → Step → Z).
Context (sources : obj Source) (narrativesMeta : list (@NarrativeMeta Step)).

Local Abbreviation selected events :=
  (selectNarratives insetSourceFrom compareTimestamp events narrativesMeta sources).

Local Abbreviation refer evt b :=
  (λ (narrs : obj (obj Val)) (narrative : string),
     let narrs :=
       match read narrs narrative with
       | Some _ => narrs
       | None => set narrs narrative (narrativeSkeleton narrative)
       end in
     if b : bool then push_step narrs narrative (insetSourceFrom sources evt)
     else Ok narrs).

(** one reference: the table gets no key that names an inherited member,
    and a reference to such a name throws *)
Lemma refer_plain evt b narrs n narrs' :
  (∀ k, k ∈ narrs.*1 → k ∉ prototype_members) →
  refer evt b narrs n = Ok narrs' →
  (b = true → n ∉ prototype_members) ∧
  ∀ k, k ∈ narrs'.*1 → k ∉ prototype_members.
Proof.
  intros Hplain. simpl.
  destruct (decide (n ∈ prototype_members)) as [Hn|Hn].
  - rewrite read_inherited; [|done|by intros ?%Hplain].
    destruct b.
    + unfold push_step. rewrite read_inherited; [done|done|by intros ?%Hplain].
    + by intros [= <-].
  - rewrite read_plain by done.
    assert (∀ k, k ∈ (match Own <$> get narrs n with
                       | Some _ => narrs
                       | None => set narrs n (narrativeSkeleton n)
                       end).*1 → k ∉ prototype_members) as Hplain1.
    { intros k. destruct (get narrs n); simpl; [apply Hplain|].
      rewrite keys_set. case_decide; [apply Hplain|].
      intros [?|Hk]%elem_of_app; [by apply Hplain|].
      by apply list_elem_of_singleton in Hk as ->. }
    set (narrs1 := match Own <$> get narrs n with
                   | Some _ => narrs
                   | None => set narrs n (narrativeSkeleton n)
                   end) in *.
    destruct b; [|by intros [= <-]].
    unfold push_step. rewrite read_plain by done.
    destruct (get narrs1 n) as [N|]; simpl; [|done].
    destruct (get N "steps") as [[|steps]|]; try done.
    intros [= <-]. split; [done|]. intros k. rewrite keys_set.
    case_decide; [apply Hplain1|].
    intros [?|Hk]%elem_of_app; [by apply Hplain1|].
    by apply list_elem_of_singleton in Hk as ->.
Qed.

Lemma forEachM_refer_plain evt b ns narrs narrs' :
  (∀ k, k ∈ narrs.*1 → k ∉ prototype_members) →
  forEachM (refer evt b) ns narrs = Ok narrs' →
  (b = true → Forall (λ n, n ∉ prototype_members) ns) ∧
  ∀ k, k ∈ narrs'.*1 → k ∉ prototype_members.
Proof.
  revert narrs. induction ns as [|n ns IH]; intros narrs Hplain.
  - intros [= <-]. by split.
  - cbn [forEachM]. destruct (refer evt b narrs n) as [narrs1|] eqn:E; [|done].
    cbn [mbind result_bind]. intros Hrest.
    destruct (refer_plain _ _ _ _ _ Hplain E) as [Hn Hplain1].
    destruct (IH _ Hplain1 Hrest) as [Hns Hplain'].
    split; [|done]. intros Hb. constructor; [by apply Hn|by apply Hns].
Qed.

(** an event on which the body of the first loop does not throw has plain
    narratives, and leaves the keys of the table plain *)
Lemma add_event_plain narrs evt narrs' :
  (∀ k, k ∈ narrs.*1 → k ∉ prototype_members) →
  add_event insetSourceFrom sources narrs evt = Ok narrs' →
  plain_narratives evt ∧ ∀ k, k ∈ narrs'.*1 → k ∉ prototype_members.
Proof.
  intros Hplain. unfold add_event. destruct (narratives evt) as [ns|] eqn:Hns; [|done].
  intros Hok. destruct (forEachM_refer_plain _ _ _ _ _ Hplain Hok) as [Hall Hplain'].
  split; [|done]. exists ns. split; [done|].
  destruct ns as [|n ns]; [constructor|]. by apply Hall.
Qed.

Lemma forEachM_add_event_plain events narrs narrs' :
  (∀ k, k ∈ narrs.*1 → k ∉ prototype_members) →
  forEachM (add_event insetSourceFrom sources) events narrs = Ok narrs' →
  Forall plain_narratives events.
Proof.
  revert narrs. induction events as [|e events IH]; intros narrs Hplain; [done|].
  simpl. destruct (add_event insetSourceFrom sources narrs e) as [narrs1|] eqn:E; [|done].
  simpl. intros Hrest. destruct (add_event_plain _ _ _ Hplain E) as [He Hplain1].
  constructor; [done|]. by eapply IH.
Qed.

(** X10: [selectNarratives] returns exactly when every event has its
    [narratives] and none of them is the name of a member of
    [Object.prototype]; otherwise it throws: [evt.narratives.length] throws
    on an absent field, and the inherited member is truthy and has no
    [steps] to push onto. *)
Theorem selectNarratives_throws_iff events :
  selectNarratives insetSourceFrom compareTimestamp events narrativesMeta sources
  = Throw TypeError
  ↔ ∃ e, e ∈ events ∧
      (narratives e = None ∨
       ∃ ns n, narratives e = Some ns ∧ n ∈ ns ∧ n ∈ prototype_members).
Proof.
  split.
  - intros Hthrow.
    assert (∀ e, plain_narratives e ∨
                 (narratives e = None ∨
                  ∃ ns n, narratives e = Some ns ∧ n ∈ ns ∧ n ∈ prototype_members))
      as Hcases.
    { intros e. destruct (narratives e) as [ns|] eqn:Hns; [|by right; left].
      destruct (decide (Forall (λ n, n ∉ prototype_members) ns)) as [Hns'|Hns'].
      - left. by exists ns.
      - right. right.
        apply not_Forall_Exists, Exists_exists in Hns' as (n & Hn & Hmem); [|apply _].
        exists ns, n. split_and!; [done..|]. by apply dec_stable. }
    assert (Forall plain_narratives events ∨
            ∃ e, e ∈ events ∧
              (narratives e = None ∨
               ∃ ns n, narratives e = Some ns ∧ n ∈ ns ∧ n ∈ prototype_members))
      as [Hall|Hbad]; [|by rewrite (selectNarratives_Ok _ _ _ _ events) in Hthrow|done].
    clear Hthrow. induction events as [|e l IH]; [by left|].
    destruct (Hcases e) as [He|He]; [|right; exists e; split; [left|done]].
    destruct IH as [Hl|(e' & He' & Hbad)]; [left; by constructor|].
    right. exists e'. split; [by right|done].
  - intros (e & He & Hbad). unfold selectNarratives.
    destruct (forEachM _ events []) as [narrs|[]] eqn:E; [|done].
    exfalso. apply forEachM_add_event_plain in E; [|by intros k ?%elem_of_nil].
    eapply Forall_forall in E as (ns & Hns & Hplain); [|exact He].
    destruct Hbad as [Hno|(ns' & n & Hns' & Hn & Hmem)]; [congruence|].
    rewrite Hns in Hns'. injection Hns' as <-.
    eapply Forall_forall in Hplain; [|exact Hn]. done.
Qed.

Lemma elem_of_references events n e :
  (n, e) ∈ references events
  ↔ e ∈ events ∧ ∃ ns, narratives e = Some ns ∧ n ∈ ns.
Proof.
  unfold references. rewrite list_elem_of_bind. split.
  - intros (e' & Hin & He'). apply list_elem_of_fmap in Hin as (n' & Heq & Hn).
    injection Heq as ? ?. subst n' e'.
    split; [done|]. destruct (narratives e) as [ns|]; [eauto|].
    by apply elem_of_nil in Hn.
  - intros (He & ns & Hns & Hn). exists e. split; [|done].
    apply list_elem_of_fmap. exists n. split; [done|]. by rewrite Hns.
Qed.

(** X11: when every event carries its narrative references, none of them
    the name of a member of [Object.prototype], the steps of an output
    narrative with the id [k] are a rearrangement of the steps pushed for
    [k]: a step is among them exactly when it is the event, with its sources
    inlined, of an event that lists [k] among its narratives. *)
Theorem selectNarratives_membership events :
  Forall plain_narratives events →
  ∃ out, selected events = Ok out ∧
    ∀ N k steps, Own N ∈ out →
      get N "id" = Some (VStr k) → get N "steps" = Some (VSteps steps) →
      steps ≡ₚ steps_for insetSourceFrom sources k events ∧
      ∀ s, s ∈ steps ↔
           ∃ e ns, e ∈ events ∧ narratives e = Some ns ∧ k ∈ ns ∧
                   s = insetSourceFrom sources e.
Proof.
  intros Hall. eexists. split; [by apply selectNarratives_Ok|].
  intros N k steps HN Hid Hsteps. apply selectNarratives_own in HN.
  destruct (selectNarratives_members _ _ _ _ events N HN)
    as (m & _ & _ & Hid' & Hsteps' & _).
  rewrite Hid' in Hid. injection Hid as <-.
  rewrite Hsteps' in Hsteps. injection Hsteps as <-.
  assert (JsSort.sort compareTimestamp (steps_for insetSourceFrom sources (nm_id m) events)
          ≡ₚ steps_for insetSourceFrom sources (nm_id m) events) as Hperm
    by apply sort_Permutation.
  split; [done|]. intros s. rewrite Hperm. unfold steps_for.
  rewrite list_elem_of_fmap. split.
  - intros ([n e] & -> & [Hn Hin]%list_elem_of_filter). simpl in *. subst n.
    apply elem_of_references in Hin as (He & ns & Hns & Hk). eauto 10.
  - intros (e & ns & He & Hns & Hk & ->). exists (nm_id m, e). split; [done|].
    apply list_elem_of_filter. split; [done|]. apply elem_of_references. eauto.
Qed.

End NarrativesMore.

(** ** Categories on the timeline *)

Lemma has_located_true events c :
  has_located events c = true
  ↔ ∃ e, e ∈ events ∧ category e = c ∧ located e = true.
Proof.
  unfold has_located. rewrite existsb_exists. split.
  - intros (e & He & [Hc Hl]%andb_true_iff). exists e.
    split; [by apply list_elem_of_In|]. by apply bool_decide_eq_true in Hc.
  - intros (e & He & Hc & Hl). exists e. split; [by apply list_elem_of_In|].
    by rewrite Hl, bool_decide_eq_true_2.
Qed.

Lemma scan_sound (events scanned : list Event) n hl :
  (∀ e, e ∈ scanned → e ∈ events) →
  (∀ k, hasLocated_at hl k = true →
        has_located events k = true ∨ k ∈ prototype_members) →
  ∀ k, hasLocated_at (scan n hl scanned) k = true →
       has_located events k = true ∨ k ∈ prototype_members.
Proof.
  revert hl. induction scanned as [|e scanned IH]; intros hl Hsub Hinv; [done|].
  assert (∀ e', e' ∈ scanned → e' ∈ events) as Hsub'.
  { intros e' He'. apply Hsub. by right. }
  simpl. destruct (length (keys hl) =? n)%nat; [done|].
  destruct (hasLocated_at hl (category e)); [by apply IH|].
  fold (located e). destruct (located e) eqn:Hloc; [|by apply IH].
  apply IH; [done|]. intros k. rewrite hasLocated_at_set.
  intros [Hk|Hk]%orb_true_iff; [|by apply Hinv].
  apply bool_decide_eq_true in Hk as ->. left. apply has_located_true.
  exists e. split; [apply Hsub; left|done].
Qed.

(** X12: whatever the order of the scan, [selectCategoriesWithTimeline]
    returns categories of the collection, in the order of the collection,
    and each of them has an event with both coordinates, or is named like a
    member of [Object.prototype], which [hasLocated] inherits. *)
Theorem selectCategoriesWithTimeline_sound (shuffle : list Event → list Event)
    categories events :
  (∀ e, e ∈ shuffle events → e ∈ events) →
  selectCategoriesWithTimeline shuffle categories events `sublist_of` categories ∧
  ∀ cat, cat ∈ selectCategoriesWithTimeline shuffle categories events →
    has_located events (cat_category cat) = true ∨
    cat_category cat ∈ prototype_members.
Proof.
  intros Hsub. unfold selectCategoriesWithTimeline.
  destruct (length categories =? 0)%nat eqn:Hlen.
  { apply Nat.eqb_eq in Hlen. destruct categories; [|done].
    split; [done|]. by intros ? ?%elem_of_nil. }
  split; [apply sublist_filter|].
  intros cat [Hcat _]%list_elem_of_filter. apply Is_true_true in Hcat.
  eapply (scan_sound events (shuffle events)); [done| |exact Hcat].
  intros k. rewrite hasLocated_at_nil. intros Hk. right.
  by apply bool_decide_eq_true in Hk.
Qed.

(** ** The active narrative, the selection and the dimensions *)

Section ObjectLiteral.
Context {V : Type}.
Implicit Types (o : obj V).

(** copying an object into a fresh one gives the same table *)
Lemma spread_copy o : NoDup o.*1 → spread [] o = o.
Proof.
  intros Hnd. unfold spread.
  assert (∀ a, (∀ k, k ∈ a.*1 → k ∉ o.*1) →
               fold_left (λ o' kv, set o' kv.1 kv.2) o a = a ++ o) as Hgen.
  { induction o as [|[k v] o IH]; intros a Ha; simpl; [by rewrite app_nil_r|].
    apply NoDup_cons in Hnd as [Hk Hnd].
    rewrite set_None.
    - rewrite IH; [by rewrite <- app_assoc|done|].
      intros k'. rewrite fmap_app. intros [Hk'|Hk']%elem_of_app.
      + intros Hin. apply (Ha k' Hk'). by right.
      + apply list_elem_of_singleton in Hk' as ->. done.
    - apply get_None. intros Hin. apply (Ha k Hin). left. }
  apply (Hgen []). by intros k ?%elem_of_nil.
Qed.

Lemma with_field_set o k v : NoDup o.*1 → with_field o k v = set o k v.
Proof. intros Hnd. unfold with_field. by rewrite spread_copy. Qed.

Lemma index_properties_set o k v :
  array_index k = None → index_properties (set o k v) = index_properties o.
Proof.
  intros Hk. induction o as [|[k' v'] o IH]; simpl.
  - by rewrite Hk.
  - case_decide as Heq.
    + subst k'. rewrite !index_properties_cons. simpl. by rewrite Hk.
    + rewrite !index_properties_cons. simpl. by rewrite IH.
Qed.

(** assigning to a key that is no array index keeps the enumeration order,
    a new key coming last *)
Lemma keys_with_field o k v :
  array_index k = None →
  keys (set o k v) = if decide (k ∈ keys o) then keys o else keys o ++ [k].
Proof.
  intros Hk.
  assert (k ∈ keys o ↔ k ∈ o.*1) as Hin.
  { unfold keys. by rewrite (entries_Permutation o). }
  unfold keys, entries in *. rewrite !fmap_app, index_properties_set by done.
  rewrite !string_properties_keys, keys_set.
  destruct (decide (k ∈ o.*1)) as [Ho|Ho].
  - rewrite decide_True; [done|]. rewrite <- string_properties_keys, <- fmap_app.
    by apply Hin.
  - rewrite decide_False.
    + rewrite filter_app, filter_cons, filter_nil, decide_True by done.
      by rewrite app_assoc.
    + rewrite <- string_properties_keys, <- fmap_app. by rewrite Hin.
Qed.

End ObjectLiteral.

(** X13: [selectActiveNarrative] is null exactly when no narrative is
    active; otherwise its [current] field is the current step, whether or not
    the narrative had such a field, every other field is that of the
    narrative, and the fields are enumerated in the order of the narrative,
    [current] coming last when it is new. *)
Theorem selectActiveNarrative_fields {V} (narrative : option (obj V)) (current : V) :
  (∀ n, narrative = Some n → NoDup n.*1) →
  (selectActiveNarrative narrative current = None ↔ narrative = None) ∧
  ∀ n, narrative = Some n →
    ∃ out, selectActiveNarrative narrative current = Some out ∧
      get out "current" = Some current ∧
      (∀ f, f ≠ "current" → get out f = get n f) ∧
      keys out = if decide ("current" ∈ keys n) then keys n else keys n ++ ["current"].
Proof.
  intros Hobj. split; [by destruct narrative|].
  intros n ->. specialize (Hobj n eq_refl). eexists. split; [done|].
  rewrite with_field_set by done. split_and!.
  - by rewrite get_set, decide_True.
  - intros f Hf. by rewrite get_set, decide_False.
  - by apply keys_with_field.
Qed.

(** X14: [selectDimensions] sets the field [trackHeight] to the content
    height less 50: to [h - 50] when [contentHeight] is the number [h], and
    to [NaN] when [contentHeight] is absent or [NaN]; every other field,
    [contentHeight] included, is unchanged, a [trackHeight] already there is
    replaced, and the fields are enumerated in the order of the dimensions,
    [trackHeight] coming last when it is new. *)
Theorem selectDimensions_fields (dimensions : obj number) :
  NoDup dimensions.*1 →
  (∀ h, get dimensions "contentHeight" = Some (Int h) →
        (- 2 ^ 53 + 50 <= h <= 2 ^ 53)%Z →
        get (selectDimensions dimensions) "trackHeight" = Some (Int (h - 50))) ∧
  (get dimensions "contentHeight" = None ∨ get dimensions "contentHeight" = Some NaN →
   get (selectDimensions dimensions) "trackHeight" = Some NaN) ∧
  (∀ f, f ≠ "trackHeight" →
        get (selectDimensions dimensions) f = get dimensions f) ∧
  keys (selectDimensions dimensions)
  = if decide ("trackHeight" ∈ keys dimensions) then keys dimensions
    else keys dimensions ++ ["trackHeight"].
Proof.
  intros Hnd. unfold selectDimensions. rewrite with_field_set by done. split_and!.
  - intros h Hh _. by rewrite get_set, decide_True, Hh.
  - intros [Hh|Hh]; by rewrite get_set, decide_True, Hh.
  - intros f Hf. by rewrite get_set, decide_False.
  - by apply keys_with_field.
Qed.

Section Selected.
Context {Source Step : Type} (insetSourceFrom : obj Source → Event → Step).

(** the branch for the empty selection agrees with the map *)
Lemma selectSelected_map (selected : list Event) (sources : obj Source) :
  selectSelected insetSourceFrom selected sources = insetSourceFrom sources <$> selected.
Proof. unfold selectSelected. by destruct selected. Qed.

End Selected.

(** ** The statements on sample inputs *)

(** [Sample.lexMin] and [Sample.lexMax] bound their arguments in the order
    of strings *)
Lemma lexMin_lower a b :
  String.leb (Sample.lexMin a b) a = true ∧ String.leb (Sample.lexMin a b) b = true.
Proof.
  unfold Sample.lexMin. destruct (String.leb a b) eqn:E.
  - split; [apply string_leb_refl|done].
  - split; [|apply string_leb_refl]. destruct (String.leb_total a b); congruence.
Qed.

Lemma lexMax_upper a b :
  String.leb a (Sample.lexMax a b) = true ∧ String.leb b (Sample.lexMax a b) = true.
Proof.
  unfold Sample.lexMax. destruct (String.leb a b) eqn:E.
  - split; [done|apply string_leb_refl].
  - split; [apply string_leb_refl|]. destruct (String.leb_total a b); congruence.
Qed.

(** X1, a witness: the event with the id 1 comes first in the collection and
    second in the visit. *)
Lemma selectEvents_visited_by_ascending_id_witness :
  (id (Demo.event 0 "2020-02-01" "c1" (Some ["alpha"]))
   < id (Demo.event 1 "2020-01-01" "c1" (Some ["alpha"])))%nat.
Proof.
  apply (selectEvents_visited_by_ascending_id Demo.isTimeRangedIn [] [] Demo.always
           Sample.descending_ids 0 1); [reflexivity|reflexivity|lia].
Defined.

(** X2, a witness: the tag [alpha] is active and the event has no [tags]
    field. *)
Lemma selectEvents_hides_untagged_witness :
  ¬ appears (Demo.event 0 "2020-01-01" "c1" None)
      (selectEvents Demo.isTimeRangedIn Demo.untagged ["alpha"] [] Demo.always).
Proof.
  apply (selectEvents_hides_untagged Demo.isTimeRangedIn ["alpha"] [] Demo.always
           Demo.untagged); [done|by left].
Defined.

(** X3, a witness: three events at the locations [B], [A] and [B]. *)
Lemma selectLocations_group_contents_witness :
  ∃ out, selectLocations (Demo.unfiltered Sample.two_locations) = Ok out ∧
    ∀ g, g ∈ out →
      ∃ e0 rest,
        filter (λ e, to_key (location e) = to_key (lg_label g))
          (JsArray.elements (Demo.unfiltered Sample.two_locations)) = e0 :: rest ∧
        lg_events g = e0 :: rest ∧
        lg_label g = location e0 ∧
        lg_latitude g = latitude e0 ∧ lg_longitude g = longitude e0.
Proof.
  apply (selectLocations_group_contents (Demo.unfiltered Sample.two_locations)).
  by apply (bool_decide_unpack _).
Defined.

(** X4, a witness: the location [B] is met before [A]. *)
Lemma selectLocations_first_occurrence_order_witness :
  ∃ out, selectLocations (Demo.unfiltered Sample.two_locations) = Ok out ∧
    (λ g, to_key (lg_label g)) <$> out
    = distinct ((λ e, to_key (location e))
                  <$> JsArray.elements (Demo.unfiltered Sample.two_locations)).
Proof.
  apply (selectLocations_first_occurrence_order (Demo.unfiltered Sample.two_locations)).
  - by apply (bool_decide_unpack _).
  - repeat constructor.
Defined.

(** X5, a witness: two days, the later one first. *)
Lemma selectDatetimes_group_contents_witness :
  ∃ out,
    selectDatetimes Demo.dateMin Demo.dateMax Demo.eventDotR Demo.dateOf
      Demo.all_on (Demo.unfiltered Demo.later_first) = Ok out ∧
    (∀ g, g ∈ out →
       ∃ e0 rest,
         filter (λ e, timestamp e = dt_timestamp g)
           (JsArray.elements (Demo.unfiltered Demo.later_first)) = e0 :: rest ∧
         de_event <$> dt_events g = e0 :: rest ∧
         dt_date g = date e0 ∧ dt_time g = time e0 ∧
         ∀ de, de ∈ dt_events g → project de = Some (first_tag (de_event de))) ∧
    (∀ e, e ∈ JsArray.elements (Demo.unfiltered Demo.later_first) →
       ∃ g, g ∈ out ∧ dt_timestamp g = timestamp e).
Proof.
  apply (selectDatetimes_group_contents Demo.dateMin Demo.dateMax Demo.eventDotR
           Demo.dateOf Demo.all_on (Demo.unfiltered Demo.later_first)).
  right. by apply plain_projects_check.
Defined.

(** X6, a witness: the project [alpha] of two days. *)
Lemma project_table_intervals_witness :
  get (project_table Demo.dateMin Demo.dateMax Demo.all_on
         (Demo.unfiltered Demo.later_first)) "alpha"
  = Some {| pj_start := "2020-01-01"; pj_end := "2020-02-01" |}.
Proof.
  apply (project_table_intervals Demo.dateMin Demo.dateMax Demo.all_on
           (Demo.unfiltered Demo.later_first) "alpha").
  - reflexivity.
  - by apply plain_projects_check.
Defined.

(** X8, a witness: projects off, an event without the [tags] field. *)
Lemma selectDatetimes_projects_off_witness :
  ∃ out,
    selectDatetimes Demo.dateMin Demo.dateMax Demo.eventDotR Demo.dateOf
      Demo.all_off (Demo.unfiltered Demo.untagged) = Ok out ∧
    ∀ g e, g ∈ out → e ∈ dt_events g →
      project e = None ∧ projectOffset e = Some (- lane_width Demo.eventDotR)%Z.
Proof.
  apply (selectDatetimes_projects_off Demo.dateMin Demo.dateMax Demo.eventDotR
           Demo.dateOf Demo.all_off (Demo.unfiltered Demo.untagged)).
  reflexivity.
Defined.

(** X9, a witness: the interval bounds are the least and the greatest
    timestamp in the order of strings. *)
Lemma selectDatetimes_tagged_event_has_lane_witness :
  ∃ out,
    selectDatetimes Sample.lexMin Sample.lexMax Demo.eventDotR Demo.dateOf
      Demo.all_on (Demo.unfiltered Demo.two_projects) = Ok out ∧
    ∀ g e p, g ∈ out → e ∈ dt_events g → project e = Some (Some p) →
      p ∈ active_at Sample.lexMin Sample.lexMax Demo.all_on
            (Demo.unfiltered Demo.two_projects) (timestamp (de_event e)) ∧
      ∃ o, projectOffset e = Some o ∧ (0 <= o)%Z.
Proof.
  apply (selectDatetimes_tagged_event_has_lane Sample.lexMin Sample.lexMax
           Demo.eventDotR Demo.dateOf Demo.all_on lexMin_lower lexMax_upper
           (Demo.unfiltered Demo.two_projects)).
  - vm_compute. discriminate.
  - reflexivity.
  - by apply plain_projects_check.
Defined.

(** X11, a witness: two events of the narrative [n1]. *)
Lemma selectNarratives_membership_witness :
  ∃ out, selectNarratives Demo.insetSourceFrom Demo.compareTimestamp
           Demo.narrative_events Demo.narrative_meta [] = Ok out ∧
    ∀ N k steps, Own N ∈ out →
      get N "id" = Some (VStr k) → get N "steps" = Some (VSteps steps) →
      steps ≡ₚ steps_for Demo.insetSourceFrom [] k Demo.narrative_events ∧
      ∀ s, s ∈ steps ↔
           ∃ e ns, e ∈ Demo.narrative_events ∧ narratives e = Some ns ∧ k ∈ ns ∧
                   s = Demo.insetSourceFrom [] e.
Proof.
  apply (selectNarratives_membership Demo.insetSourceFrom Demo.compareTimestamp []
           Demo.narrative_meta Demo.narrative_events).
  apply narrative_events_plain.
Defined.

(** X12, a witness: the events are scanned in reverse order, and one of
    the categories is named [constructor]. *)
Lemma selectCategoriesWithTimeline_sound_witness :
  selectCategoriesWithTimeline reverse Sample.with_constructor Demo.foreign_first
    `sublist_of` Sample.with_constructor ∧
  ∀ cat, cat ∈ selectCategoriesWithTimeline reverse Sample.with_constructor
                 Demo.foreign_first →
    has_located Demo.foreign_first (cat_category cat) = true ∨
    cat_category cat ∈ prototype_members.
Proof.
  apply (selectCategoriesWithTimeline_sound reverse Sample.with_constructor
           Demo.foreign_first).
  intros e He. by apply elem_of_reverse in He.
Defined.

(** X13, a witness: a narrative with the fields [id] and [label]. *)
Lemma selectActiveNarrative_fields_witness :
  (selectActiveNarrative (Some Sample.narrative) "3" = None ↔ Some Sample.narrative = None) ∧
  ∀ n, Some Sample.narrative = Some n →
    ∃ out, selectActiveNarrative (Some Sample.narrative) "3" = Some out ∧
      get out "current" = Some "3" ∧
      (∀ f, f ≠ "current" → get out f = get n f) ∧
      keys out = if decide ("current" ∈ keys n) then keys n else keys n ++ ["current"].
Proof.
  apply (selectActiveNarrative_fields (Some Sample.narrative) "3").
  intros n [= <-]. by apply (bool_decide_unpack _).
Defined.

(** X14, a witness: dimensions with a content height of 200. *)
Lemma selectDimensions_fields_witness :
  (∀ h, get Sample.dimensions "contentHeight" = Some (Int h) →
        (- 2 ^ 53 + 50 <= h <= 2 ^ 53)%Z →
        get (selectDimensions Sample.dimensions) "trackHeight" = Some (Int (h - 50))) ∧
  (get Sample.dimensions "contentHeight" = None ∨
   get Sample.dimensions "contentHeight" = Some NaN →
   get (selectDimensions Sample.dimensions) "trackHeight" = Some NaN) ∧
  (∀ f, f ≠ "trackHeight" →
        get (selectDimensions Sample.dimensions) f = get Sample.dimensions f) ∧
  keys (selectDimensions Sample.dimensions)
  = ["height"; "contentHeight"; "trackHeight"].
Proof.
  apply (selectDimensions_fields Sample.dimensions).
  by apply (bool_decide_unpack _).
Defined.

(** X16, a witness: every located event is of the category [c1] of the
    collection, which has a category named [constructor] too, and the
    events are scanned in reverse order. *)
Lemma selectCategoriesWithTimeline_referential_witness :
  selectCategoriesWithTimeline reverse Sample.with_constructor Sample.own_events
  = filter (λ cat, bool_decide (cat_category cat ∈ prototype_members)
                   || has_located Sample.own_events (cat_category cat))
      Sample.with_constructor.
Proof.
  apply (selectCategoriesWithTimeline_referential Sample.with_constructor reverse
           Sample.own_events).
  - intros l. apply reverse_Permutation.
  - intros e He _. apply elem_of_cons in He as [->|He]; [right; left|].
    apply elem_of_cons in He as [->|He]; [right; left|]. by apply elem_of_nil in He.
Defined.

(** ** What the inherited members do

    The selectors on keys named like members of [Object.prototype]:
    [selectLocations] throws on a location [constructor]; [selectNarratives]
    throws on a narrative [constructor], and returns the inherited
    [toString] for a metadata entry of that name that no event refers to;
    [selectDatetimes] throws on the second of two events of the project
    [hasOwnProperty], and gives the event of the project [__proto__], which
    gets no interval, the offset -(2R+5); [selectCategoriesWithTimeline]
    returns a category [constructor] that has no event. *)
Example inherited_members_observed :
  selectLocations (Demo.unfiltered Sample.at_constructor) = Throw TypeError ∧
  selectNarratives Demo.insetSourceFrom Demo.compareTimestamp
    Sample.in_constructor Demo.narrative_meta [] = Throw TypeError ∧
  selectNarratives Demo.insetSourceFrom Demo.compareTimestamp
    [] Sample.toString_meta [] = Ok [Inherited "toString"] ∧
  selectDatetimes Demo.dateMin Demo.dateMax Demo.eventDotR Demo.dateOf
    Demo.all_on (Demo.unfiltered Sample.shadowing) = Throw TypeError ∧
  (∃ g e, selectDatetimes Demo.dateMin Demo.dateMax Demo.eventDotR Demo.dateOf
            Demo.all_on (Demo.unfiltered Sample.proto_project) = Ok [g] ∧
          dt_events g = [e] ∧ project e = Some (Some "__proto__") ∧
          projectOffset e = Some (-21)%Z ∧
          project_table Demo.dateMin Demo.dateMax Demo.all_on
            (Demo.unfiltered Sample.proto_project) = []) ∧
  selectCategoriesWithTimeline (λ events, events) Sample.with_constructor []
  = [{| cat_category := "constructor"; cat_description := "inherited" |}].
Proof.
  split_and!; try reflexivity. by eexists _, _.
Qed.
